(** * RealmsPlayerlistBot: command admission and error escalation

    A shallow embedding of [main.py] (prefix resolution, the global
    admission check) and of [common/utils.py] (the invocation context's
    configuration memo, the error pipeline, the embed validator), followed
    by the properties established about them.

    Conventions.
    - Python [int] is [Z]; a Python [str] that is only compared or stored
      (a prefix, a command name) is a [string]; a [str] whose characters
      and length matter (error text, embed fields) is a list of code
      points, [pystr].
    - A coroutine is a state transformer that may raise: the state survives
      an exception, as Python's heap does.
    - [Set[str]] is [gset string]; the prefix cache, a
      [defaultdict(set)] keyed by guild id, is a [gmap Z (gset string)]
      together with the insert-on-miss read of [defaultdict]. *)

From Stdlib Require Ascii String.
From stdpp Require Import base option list gmap strings pretty.

Set Warnings "-abstract-large-number".

(** ** Exceptions and the effect monad *)

(** The exception classes the modelled code raises or catches.
    [OtherError] stands for every class that no handler below names. *)
Inductive exn : Type :=
  | DoesNotExist          (* tortoise.exceptions.DoesNotExist *)
  | AttributeError
  | ConfigurationError    (* tortoise.exceptions.ConfigurationError *)
  | KeyError
  | AsyncioTimeoutError   (* asyncio.TimeoutError *)
  | IndexError
  | OtherError (name : string).

Definition M (S A : Type) : Type := S → (exn + A) * S.

Definition ret {S A} (a : A) : M S A := λ s, (inr a, s).

Definition raise {S A} (e : exn) : M S A := λ s, (inl e, s).

Definition bind {S A B} (m : M S A) (k : A → M S B) : M S B :=
  λ s, match m s with
       | (inr a, s') => k a s'
       | (inl e, s') => (inl e, s')
       end.

(** [try: m except e: h e]; a handler returning [None] does not match the
    exception, which then propagates. *)
Definition try_except {S A} (m : M S A) (h : exn → option (M S A)) : M S A :=
  λ s, match m s with
       | (inr a, s') => (inr a, s')
       | (inl e, s') =>
           match h e with
           | Some k => k s'
           | None => (inl e, s')
           end
       end.

Definition gets {S A} (f : S → A) : M S A := λ s, (inr (f s), s).

Definition modify {S} (f : S → S) : M S unit := λ s, (inr tt, f s).

Declare Scope py_scope.
Delimit Scope py_scope with py.
Notation "'let*' x := m 'in' k" := (bind m (λ x, k))
  (at level 10, x name, m at level 100, k at level 200) : py_scope.
Open Scope py_scope.

(** ** Platform objects (the attributes the code reads) *)

Record Guild := { Guild_id : Z }.

Record User := { User_id : Z }.

(** [bot.user]: the bot's own account; [mention] is the platform
    library's property, a string derived from the id. *)
Record ClientUser := { ClientUser_id : Z; ClientUser_mention : string }.

Record Message := { Message_guild : option Guild }.

Record Command := { qualified_name : string }.

(** Modelled from the spec: [common/models.py] (the ORM class
    [GuildConfig]) is not part of the sources. The record keeps the unique
    community key and the set of accepted prefixes, the two fields the
    modelled code reads; an instance is a plain object and so is truthy. *)
Record GuildConfig := { guild_id : Z; prefixes : gset string }.

(** ** The configuration store *)

(** [GuildConfig.get(guild_id=g)] either returns the record or raises.
    [store_calls] counts the round-trips, oldest first. *)
Record Store := {
  store_get : Z → exn + GuildConfig;
  store_calls : list Z
}.

Class HasStore (S : Type) := {
  the_store : S → Store;
  with_store : Store → S → S
}.

Definition GuildConfig_get {S : Type} `{!HasStore S} (g : Z) : M S GuildConfig :=
  λ s, let d := the_store s in
       (store_get d g,
        with_store {| store_get := store_get d;
                      store_calls := store_calls d ++ [g] |} s).

(** ** main.py: the bot object and prefix resolution *)

Record RealmBot := {
  user : ClientUser;              (* set at login, before any message arrives *)
  is_ready : bool;                (* [bot.is_ready()] *)
  init_load : bool;
  owner : option User;            (* unset until [on_init_load] finishes *)
  cached_prefixes : gmap Z (gset string)
}.

Definition set_cached_prefixes (c : gmap Z (gset string)) (b : RealmBot) : RealmBot :=
  {| user := user b; is_ready := is_ready b; init_load := init_load b;
     owner := owner b; cached_prefixes := c |}.

Record World := { bot : RealmBot; db : Store }.

#[export] Instance World_HasStore : HasStore World := {|
  the_store := db;
  with_store d w := {| bot := bot w; db := d |}
|}.

Definition update_bot (f : RealmBot → RealmBot) (w : World) : World :=
  {| bot := f (bot w); db := db w |}.

(** [bot.cached_prefixes[g]] on a [defaultdict(set)]: a missing key is
    first inserted with the empty set. *)
Definition cached_prefixes_getitem (g : Z) : M World (gset string) :=
  λ w, match cached_prefixes (bot w) !! g with
       | Some p => (inr p, w)
       | None =>
           (inr ∅, update_bot (set_cached_prefixes (<[g := ∅]> (cached_prefixes (bot w)))) w)
       end.

(** [bot.cached_prefixes[g] = p] *)
Definition cached_prefixes_setitem (g : Z) (p : gset string) : M World unit :=
  modify (λ w, update_bot (set_cached_prefixes (<[g := p]> (cached_prefixes (bot w)))) w).

(** Truth value of a Python set. *)
Definition set_truthy (p : gset string) : bool := bool_decide (p ≠ ∅).

Definition _get_prefixes (msg : Message) : M World (gset string) :=
  match Message_guild msg with
  | None => ret ∅
  | Some guild =>
      let* cached := cached_prefixes_getitem (Guild_id guild) in
      if set_truthy cached then ret cached
      else
        let* guild_config := GuildConfig_get (Guild_id guild) in
        let* _ := cached_prefixes_setitem (Guild_id guild) (prefixes guild_config) in
        ret (prefixes guild_config)
  end.

Definition mention_prefixes (b : RealmBot) : gset string :=
  {[ ClientUser_mention (user b) +:+ " ";
     "<@!" +:+ pretty (ClientUser_id (user b)) +:+ "> " ]}.

(** The [except] chain of [realms_playerlist_prefixes], in source order. *)
Definition prefix_handlers (e : exn) : option (M World (gset string)) :=
  match e with
  | DoesNotExist => Some (ret ∅)
  | AttributeError => Some (ret {[ "!?" ]})
  | ConfigurationError => Some (ret ∅)
  | KeyError => Some (ret ∅)
  | AsyncioTimeoutError => Some (ret ∅)
  | _ => None
  end.

Definition realms_playerlist_prefixes (msg : Message) : M World (gset string) :=
  let* mentions := gets (λ w, mention_prefixes (bot w)) in
  let* custom_prefixes := try_except (_get_prefixes msg) prefix_handlers in
  ret (mentions ∪ custom_prefixes).

(** ** main.py: the global admission check *)

Record Context := {
  ctx_bot : RealmBot;
  ctx_guild : option Guild;
  ctx_author : User;
  ctx_command : option Command
}.

(** Attribute access on an object that may be [None] / unset. *)
Definition attr {A} (o : option A) : exn + A :=
  match o with Some a => inr a | None => inl AttributeError end.

Section Gate.

(** [DEV_GUILD_ID = int(os.environ["DEV_GUILD_ID"])] *)
Variable DEV_GUILD_ID : Z.

(** [ctx.guild.id == DEV_GUILD_ID and ctx.command.qualified_name not in
    ("help", "ping")]: the right operand is evaluated only when the left
    one holds. *)
Definition restricted_and_not_allowed (guild : Guild) (ctx : Context) : exn + bool :=
  if bool_decide (Guild_id guild = DEV_GUILD_ID) then
    match attr (ctx_command ctx) with
    | inl e => inl e
    | inr cmd => inr (negb (bool_decide (qualified_name cmd ∈ ["help"; "ping"])))
    end
  else inr false.

Definition global_checks (ctx : Context) : exn + bool :=
  if negb (is_ready (ctx_bot ctx)) then inr false
  else if init_load (ctx_bot ctx) then inr false
  else match ctx_guild ctx with
       | None => inr false
       | Some guild =>
           match attr (owner (ctx_bot ctx)) with
           | inl e => inl e
           | inr own =>
               if bool_decide (User_id (ctx_author ctx) = User_id own) then inr true
               else match restricted_and_not_allowed guild ctx with
                    | inl e => inl e
                    | inr b => inr (negb b)
                    end
           end
       end.

End Gate.

(** ** common/utils.py: the invocation context *)

(** [guild: nextcord.Guild] and [guild_config: Optional[GuildConfig]], as
    the class declares them. *)
Record RealmContext := {
  guild : Guild;
  guild_config : option GuildConfig
}.

Record Invocation := { self : RealmContext; inv_db : Store }.

#[export] Instance Invocation_HasStore : HasStore Invocation := {|
  the_store := inv_db;
  with_store d i := {| self := self i; inv_db := d |}
|}.

Definition set_guild_config (c : GuildConfig) (i : Invocation) : Invocation :=
  {| self := {| guild := guild (self i); guild_config := Some c |};
     inv_db := inv_db i |}.

Definition fetch_config : M Invocation GuildConfig :=
  let* memo := gets (λ i, guild_config (self i)) in
  match memo with
  | Some c => ret c
  | None =>
      let* g := gets (λ i, guild (self i)) in
      let* config := GuildConfig_get (Guild_id g) in
      let* _ := modify (set_guild_config config) in
      ret config
  end.

(** ** common/utils.py: text helpers *)

(** A Python [str] as its sequence of code points; [len] is [length]. *)
Abbreviation pystr := (list N) (only parsing).

Definition codes (s : string) : pystr :=
  Ascii.N_of_ascii <$> String.list_ascii_of_string s.

Definition NL : N := 10%N.
Definition CR : N := 13%N.

(** The line boundaries of [str.splitlines]: \n \v \f \r, the
    separators 1c 1d 1e, NEL 85, and the Unicode line and paragraph
    separators 2028 and 2029. *)
Definition is_linebreak (c : N) : bool :=
  bool_decide (c ∈ [10; 11; 12; 13; 28; 29; 30; 133; 8232; 8233]%N).

(** [s.splitlines()], scanning left to right with the line read so far in
    [cur]. A boundary closes the line and is dropped; CR LF counts as one
    boundary; a text that ends right after a boundary has no last empty
    line. *)
Fixpoint splitlines_from (cur : pystr) (s : pystr) : list pystr :=
  match s with
  | [] => if bool_decide (cur = []) then [] else [cur]
  | c :: rest =>
      if is_linebreak c then
        cur :: match rest with
               | c' :: rest' =>
                   if bool_decide (c = CR ∧ c' = NL) then splitlines_from [] rest'
                   else splitlines_from [] rest
               | [] => splitlines_from [] rest
               end
      else splitlines_from (cur ++ [c]) rest
  end.

Definition splitlines (s : pystr) : list pystr := splitlines_from [] s.

(** [sep.join(l)] *)
Fixpoint join (sep : pystr) (l : list pystr) : pystr :=
  match l with
  | [] => []
  | [x] => x
  | x :: rest => x ++ sep ++ join sep rest
  end.

(** [range(0, stop, step)] for a positive [step]. *)
Definition range_step (stop step : nat) : list nat :=
  (λ k, k * step) <$> seq 0 ((stop + step - 1) / step).

(** [[l[x : x + n] for x in range(0, len(l), n)]] *)
Definition slices {A} (n : nat) (l : list A) : list (list A) :=
  (λ x, take n (drop x l)) <$> range_step (length l) n.

Definition line_split (content : pystr) (split_by : nat) : list (list pystr) :=
  slices split_by (splitlines content).

Definition string_split (s : pystr) : list pystr := slices 1950 s.

(** ** common/utils.py: the error pipeline *)

(** What the pipeline reads of the exception: whether it is an
    [aiohttp.ServerDisconnectedError], its rendering by [error_format]
    (the traceback module's text) and its [str()]. *)
Record ErrorValue := {
  server_disconnected : bool;
  error_format : pystr;
  error_str : pystr
}.

Inductive CtxKind := TextCommand | Interaction | OtherCtx.

(** The optional context: which reply mechanism it has, and
    [ctx.message.jump_url] when both attributes exist. *)
Record ErrorCtx := { ctx_kind : CtxKind; jump_url : option pystr }.

(** The two ways [msg_to_owner] is called: a string to be split
    ([split=True], the default), or a prepared list of chunks
    ([split=False]). *)
Inductive OwnerContent :=
  | Split (text : pystr)
  | Unsplit (chunks : list pystr).

(** Messages leaving the process, in sending order. *)
Inductive Sent :=
  | OwnerSend (content : pystr)
  | CtxReply (embed_description : pystr)
  | InteractionSend (embed_description : pystr).

Definition code_open : pystr := codes "```py" ++ [NL].
Definition code_close : pystr := [NL] ++ codes "```".

(** The body of the loop over [chunks]:
    [chunk[0] = f"```py\n{chunk[0]}"; chunk[len(chunk) - 1] += "\n```"].
    List assignment raises on an index out of range. *)
Definition wrap_chunk (chunk : list pystr) : exn + list pystr :=
  match chunk !! 0 with
  | None => inl IndexError
  | Some first =>
      let chunk := <[0 := code_open ++ first]> chunk in
      match chunk !! (length chunk - 1) with
      | None => inl IndexError
      | Some last => inr (<[length chunk - 1 := last ++ code_close]> chunk)
      end
  end.

Fixpoint wrap_chunks (chunks : list (list pystr)) : exn + list (list pystr) :=
  match chunks with
  | [] => inr []
  | chunk :: rest =>
      match wrap_chunk chunk with
      | inl e => inl e
      | inr chunk' =>
          match wrap_chunks rest with
          | inl e => inl e
          | inr rest' => inr (chunk' :: rest')
          end
      end
  end.

Definition msg_to_owner (content : OwnerContent) : list Sent :=
  let str_chunks :=
    match content with
    | Split string => string_split string
    | Unsplit chunks => chunks
    end in
  OwnerSend <$> str_chunks.

(** [final_chunks] of the non-transient path, before the optional
    jump-reference line is put in front. *)
Definition error_chunks (error_text : pystr) : exn + list pystr :=
  match wrap_chunks (line_split error_text 20) with
  | inl e => inl e
  | inr chunks => inr (join [NL] <$> chunks)
  end.

Definition user_notice (error : ErrorValue) : pystr :=
  codes "An internal error has occured. The bot owner has been notified."
  ++ [NL] ++ codes "Error (for bot owner purposes): " ++ error_str error.

Definition error_handle (error : ErrorValue) (ctx : option ErrorCtx) : exn + list Sent :=
  let to_send :=
    if server_disconnected error then inr (Split (codes "Disconnected from server!"))
    else
      match error_chunks (error_format error) with
      | inl e => inl e
      | inr final_chunks =>
          inr (Unsplit
                 match ctx ≫= jump_url with
                 | Some url => (codes "Error on: " ++ url) :: final_chunks
                 | None => final_chunks
                 end)
      end in
  match to_send with
  | inl e => inl e
  | inr content =>
      inr (msg_to_owner content ++
           match ctx with
           | None => []
           | Some c =>
               match ctx_kind c with
               | TextCommand => [CtxReply (user_notice error)]
               | Interaction => [InteractionSend (user_notice error)]
               | OtherCtx => []
               end
           end)
  end.

(** The direct messages the operator receives, in order. *)
Definition to_owner (m : Sent) : option pystr :=
  match m with OwnerSend c => Some c | _ => None end.

Definition owner_messages (sent : list Sent) : list pystr := omap to_owner sent.

(** ** common/utils.py: the embed validator *)

Record EmbedField := { field_name : pystr; field_value : pystr }.

Record EmbedAuthor := { author_name : option pystr }.

Record EmbedFooter := { footer_text : option pystr }.

(** A rich-message payload. An unset title or description, and an author
    or footer that was never set, are [None]; all of them are falsy. *)
Record Embed := {
  title : option pystr;
  description : option pystr;
  author : option EmbedAuthor;
  footer : option EmbedFooter;
  fields : list EmbedField
}.

Definition len_opt (o : option pystr) : nat := from_option length 0 o.

(** [len(embed)], as the platform library defines it: the characters of
    title, description, every field name and value, footer text and author
    name. *)
Definition Embed_len (embed : Embed) : nat :=
  len_opt (title embed) + len_opt (description embed)
  + sum_list ((λ f, length (field_name f) + length (field_value f)) <$> fields embed)
  + len_opt (footer embed ≫= footer_text)
  + len_opt (author embed ≫= author_name).

(** [s and len(s) > limit] for a string, and for an optional one. *)
Definition str_over (limit : nat) (s : pystr) : bool :=
  negb (bool_decide (s = [])) && bool_decide (limit < length s).

Definition opt_over (limit : nat) (o : option pystr) : bool :=
  from_option (str_over limit) false o.

(** The loop over [embed.fields], leaving at the first field over a limit. *)
Fixpoint fields_within (fs : list EmbedField) : bool :=
  match fs with
  | [] => true
  | field :: rest =>
      if str_over 1024 (field_name field) then false
      else if str_over 2048 (field_value field) then false
      else fields_within rest
  end.

Definition embed_check (embed : Embed) : bool :=
  if bool_decide (6000 < Embed_len embed) then false
  else if opt_over 256 (title embed) then false
  else if opt_over 4096 (description embed) then false
  else if from_option (λ a, opt_over 256 (author_name a)) false (author embed) then false
  else if from_option (λ f, opt_over 2048 (footer_text f)) false (footer embed) then false
  else if negb (bool_decide (fields embed = [])) then
    if bool_decide (25 < length (fields embed)) then false
    else fields_within (fields embed)
  else true.

(** ** Vocabulary of the statements *)

(** What [bot.cached_prefixes[g]] reads: the set stored for [g], or the
    empty set of the [defaultdict]. *)
Definition cached_for (w : World) (g : Z) : gset string :=
  default ∅ (cached_prefixes (bot w) !! g).

(** Number of store round-trips made so far for community [g]. *)
Definition fetch_count (g : Z) (w : World) : nat :=
  length (filter (λ k, k = g) (store_calls (db w))).

(** The exception classes named by the [except] clauses of the resolver. *)
Definition handled (e : exn) : Prop :=
  e ∈ [DoesNotExist; AttributeError; ConfigurationError; KeyError; AsyncioTimeoutError].

(** The world after resolving the prefixes of each message in turn. *)
Fixpoint run_resolutions (msgs : list Message) (w : World) : World :=
  match msgs with
  | [] => w
  | msg :: rest => run_resolutions rest (realms_playerlist_prefixes msg w).2
  end.

(** The world right after the [defaultdict] read and the store call. *)
Definition after_fetch (g : Z) (w : World) : World :=
  (GuildConfig_get g (cached_prefixes_getitem g w).2).2.

(** The world after a successful fetch has stored the record's prefixes. *)
Definition after_populate (g : Z) (p : gset string) (w : World) : World :=
  update_bot (set_cached_prefixes (<[g := p]> (cached_prefixes (bot (after_fetch g w)))))
             (after_fetch g w).

(** The same store, answering differently from now on. *)
Definition store_now (get : Z → exn + GuildConfig) (w : World) : World :=
  {| bot := bot w;
     db := {| store_get := get; store_calls := store_calls (db w) |} |}.

(** The platform ceilings in the words of the specification. *)
Definition within_limits (e : Embed) : Prop :=
  (Embed_len e ≤ 6000
   ∧ len_opt (title e) ≤ 256
   ∧ len_opt (description e) ≤ 4096
   ∧ len_opt (author e ≫= author_name) ≤ 256
   ∧ len_opt (footer e ≫= footer_text) ≤ 2048
   ∧ length (fields e) ≤ 25
   ∧ Forall (λ f, length (field_name f) ≤ 1024 ∧ length (field_value f) ≤ 2048)
            (fields e))%nat.

(** Sample values for the concrete instances below. *)
Definition sample_bot : RealmBot :=
  {| user := {| ClientUser_id := 7; ClientUser_mention := "<@7>" |};
     is_ready := true; init_load := false;
     owner := Some {| User_id := 1 |};
     cached_prefixes := ∅ |}.

Definition sample_world (get : Z → exn + GuildConfig) : World :=
  {| bot := sample_bot; db := {| store_get := get; store_calls := [] |} |}.

Definition msg_in (g : Z) : Message := {| Message_guild := Some {| Guild_id := g |} |}.

Definition direct_message : Message := {| Message_guild := None |}.

Definition ctx_of (b : RealmBot) (g : option Z) (author_id : Z) (cmd : string) : Context :=
  {| ctx_bot := b; ctx_guild := (λ i, {| Guild_id := i |}) <$> g;
     ctx_author := {| User_id := author_id |};
     ctx_command := Some {| qualified_name := cmd |} |}.

Definition description_only (n : nat) : Embed :=
  {| title := None; description := Some (replicate n 97%N);
     author := None; footer := None; fields := [] |}.

Definition starting_bot : RealmBot :=
  {| user := user sample_bot; is_ready := true; init_load := true;
     owner := None; cached_prefixes := ∅ |}.

(** [n] calls of [fetch_config] on the same context, one after the other:
    what each call returned or raised, and the final state. *)
Fixpoint fetch_config_times (n : nat) (i : Invocation) : list (exn + GuildConfig) * Invocation :=
  match n with
  | O => ([], i)
  | S n' =>
      let r := fetch_config i in
      let rs := fetch_config_times n' r.2 in
      (r.1 :: rs.1, rs.2)
  end.

Definition sample_invocation (get : Z → exn + GuildConfig) : Invocation :=
  {| self := {| guild := {| Guild_id := 42 |}; guild_config := None |};
     inv_db := {| store_get := get; store_calls := [] |} |}.

(** A string without any line boundary. *)
Definition break_free (s : pystr) : Prop := Forall (λ c, is_linebreak c = false) s.

(** The text made of the given lines, each followed by a newline: the
    shape in which the traceback module renders an exception whose message
    has no line boundary of its own. *)
Definition terminated (ls : list pystr) : pystr := concat ((λ l, l ++ [NL]) <$> ls).

(** The jump-reference message, when the context has one. *)
Definition jump_line (ctx : option ErrorCtx) : list pystr :=
  match ctx ≫= jump_url with
  | Some url => [codes "Error on: " ++ url]
  | None => []
  end.

(** A group of lines as the code block the operator receives. *)
Definition code_block (grp : list pystr) : pystr :=
  code_open ++ join [NL] grp ++ code_close.

Definition plain_error (text : pystr) : ErrorValue :=
  {| server_disconnected := false; error_format := text; error_str := [] |}.

(** ** common/utils.py: extension names *)

#[export] Instance exn_eq_dec : EqDecision exn.
Proof. solve_decision. Defined.

(** [s.startswith(p)] *)
Fixpoint is_prefix (p s : pystr) : bool :=
  match p, s with
  | [], _ => true
  | _ :: _, [] => false
  | a :: p', b :: s' => bool_decide (a = b) && is_prefix p' s'
  end.

(** [old in s] *)
Fixpoint occurs (old s : pystr) : bool :=
  is_prefix old s || match s with [] => false | _ :: rest => occurs old rest end.

(** The left-to-right scan of [str.replace] for a non-empty [old]: at a
    match [new] is written and the rest of the match skipped ([skip]
    counts the characters still to skip); occurrences do not overlap. *)
Fixpoint replace_from (old new : pystr) (skip : nat) (s : pystr) : pystr :=
  match s with
  | [] => []
  | c :: rest =>
      match skip with
      | S k => replace_from old new k rest
      | O =>
          if is_prefix old s then new ++ replace_from old new (length old - 1) rest
          else c :: replace_from old new 0 rest
      end
  end.

(** [s.replace(old, new)]; an empty [old] matches before every character
    and at the end. *)
Definition str_replace (old new s : pystr) : pystr :=
  match old with
  | [] => new ++ concat ((λ c, c :: new) <$> s)
  | _ :: _ => replace_from old new 0 s
  end.

(** The scan of [str.split(sep)] for a non-empty [sep], with the piece
    read so far in [cur]. *)
Fixpoint split_from (sep : pystr) (skip : nat) (cur : pystr) (s : pystr) : list pystr :=
  match s with
  | [] => [cur]
  | c :: rest =>
      match skip with
      | S k => split_from sep k cur rest
      | O =>
          if is_prefix sep s then cur :: split_from sep (length sep - 1) [] rest
          else split_from sep 0 (cur ++ [c]) rest
      end
  end.

(** [s.split(sep)] for a non-empty separator (Python raises [ValueError]
    on an empty one; the code only splits on a literal). *)
Definition str_split (sep s : pystr) : list pystr := split_from sep 0 [] s.

Definition SLASH : N := 47%N.
Definition BACKSLASH : N := 92%N.
Definition HYPHEN : N := 45%N.
Definition UNDERSCORE : N := 95%N.

Definition file_to_ext (str_path base_path : pystr) : pystr :=
  let str_path := str_replace base_path [] str_path in
  let str_path := str_replace [SLASH] (codes ".") str_path in
  str_replace (codes ".py") [] str_path.

Section Extensions.

(** [Path(d).glob("**/*.py")], each result as [str(path.as_posix())]: the
    file system, seen through the directory string handed to [Path]. *)
Variable glob_py : pystr → list pystr.

Definition get_all_extensions (str_path folder : pystr) : exn + list pystr :=
  let loc_split := str_split (codes "cogs") str_path in
  match loc_split !! 0 with
  | None => inl IndexError
  | Some base_path =>
      let base_path :=
        if bool_decide (base_path = str_path)
        then str_replace (codes "main.py") [] base_path
        else base_path in
      let base_path := str_replace [BACKSLASH] [SLASH] base_path in
      match last base_path with
      | None => inl IndexError            (* [base_path[-1]] on an empty string *)
      | Some c =>
          let base_path :=
            if bool_decide (c ≠ SLASH) then base_path ++ [SLASH] else base_path in
          inr (filter (λ ext, ext ≠ codes "cogs.db_handler")
                 ((λ path, file_to_ext path base_path)
                    <$> glob_py (base_path ++ [SLASH] ++ folder)))
      end
  end.

End Extensions.

(** ** main.py: the bot's event handlers *)

(** What [get_context] reads and writes of the context built by the
    platform library: the command it found, if any, and the word the user
    invoked. *)
Record ParsedContext := {
  parsed_command : option Command;
  invoked_with : option pystr
}.

Definition get_context (all_commands : gmap pystr Command) (ctx : ParsedContext) : ParsedContext :=
  match parsed_command ctx, invoked_with ctx with
  | None, Some word =>
      if bool_decide (word ≠ []) then
        {| parsed_command := all_commands !! str_replace [HYPHEN] [UNDERSCORE] word;
           invoked_with := invoked_with ctx |}
      else ctx
  | _, _ => ctx
  end.

(** The bot together with everything sent so far. *)
Record Process := { proc_bot : RealmBot; proc_sent : list Sent }.

Definition set_init_load (v : bool) (b : RealmBot) : RealmBot :=
  {| user := user b; is_ready := is_ready b; init_load := v;
     owner := owner b; cached_prefixes := cached_prefixes b |}.

Definition send_all (msgs : list Sent) (p : Process) : Process :=
  {| proc_bot := proc_bot p; proc_sent := proc_sent p ++ msgs |}.

Definition ConnectionClosedOK : exn := OtherError "ConnectionClosedOK".

(** [on_ready]. [time_format] is the rendering of the current time and
    [change_presence] what the presence update raises, if anything. The
    handler first polls until another task has set [bot.owner]; on a state
    without owner it makes no progress, which is [None] here. Sending to
    the operator is taken to succeed, as in [error_handle]. *)
Definition on_ready (time_format : pystr) (change_presence : option exn) (p : Process)
    : option ((exn + unit) * Process) :=
  match owner (proc_bot p) with
  | None => None
  | Some _ =>
      let connect_msg :=
        if init_load (proc_bot p)
        then codes "Logged in at " ++ time_format ++ codes "!"
        else codes "Reconnected at " ++ time_format ++ codes "!" in
      let p := send_all [OwnerSend connect_msg] p in
      let p := {| proc_bot := set_init_load false (proc_bot p); proc_sent := proc_sent p |} in
      Some match change_presence with
           | None => (inr tt, p)
           | Some e =>
               if bool_decide (e = ConnectionClosedOK)
               then (inr tt, send_all (msg_to_owner (Split (codes "Reconnecting..."))) p)
               else (inl e, p)
           end
  end.

(** [on_error]: the exception being handled goes to [error_handle] without
    a context. *)
Definition on_error (error : ErrorValue) : exn + list Sent := error_handle error None.

(** The embed [error_handle] builds for the user notice. *)
Definition error_embed (error : ErrorValue) : Embed :=
  {| title := None; description := Some (user_notice error);
     author := None; footer := None; fields := [] |}.

(** A run of [on_ready] events, each with its time and presence outcome;
    a handler that raised has still left its state behind. *)
Fixpoint on_ready_all (events : list (pystr * option exn)) (p : Process) : option Process :=
  match events with
  | [] => Some p
  | (time_format, change_presence) :: rest =>
      match on_ready time_format change_presence p with
      | None => None
      | Some (_, p') => on_ready_all rest p'
      end
  end.

(** The state the module leaves behind before [bot.run]: [init_load] set,
    no owner yet, an empty prefix cache. *)
Definition fresh_bot (u : ClientUser) : RealmBot :=
  {| user := u; is_ready := false; init_load := true; owner := None;
     cached_prefixes := ∅ |}.

Definition hyphen_to_underscore (c : N) : N :=
  if bool_decide (c = HYPHEN) then UNDERSCORE else c.

Definition slash_to_dot (c : N) : N :=
  if bool_decide (c = SLASH) then 46%N else c.

Definition backslash_to_slash (c : N) : N :=
  if bool_decide (c = BACKSLASH) then SLASH else c.

(** A file system holding two modules under [/home/bot/cogs]. *)
Definition sample_glob (d : pystr) : list pystr :=
  if bool_decide (d = codes "/home/bot//cogs")
  then [codes "/home/bot/cogs/general.py"; codes "/home/bot/cogs/db_handler.py"]
  else [].

(** What one [on_ready] sends to the operator: the announcement, then
    "Reconnecting..." when the presence update met a closed connection. *)
Definition announcement (first : bool) (time_format : pystr) (change_presence : option exn)
    : list Sent :=
  OwnerSend ((if first then codes "Logged in at " else codes "Reconnected at ")
             ++ time_format ++ codes "!")
  :: (if bool_decide (change_presence = Some ConnectionClosedOK)
      then [OwnerSend (codes "Reconnecting...")] else []).

Fixpoint announcements (first : bool) (events : list (pystr * option exn)) : list Sent :=
  match events with
  | [] => []
  | (time_format, change_presence) :: rest =>
      announcement first time_format change_presence ++ announcements false rest
  end.

(** * Properties *)

(** ** Prefix resolution *)

Section Resolver.

Implicit Types (msg : Message) (w : World) (g : Guild) (p : gset string).

Lemma get_prefixes_no_guild msg w :
  Message_guild msg = None → _get_prefixes msg w = (inr ∅, w).
Proof. intros Hg. unfold _get_prefixes. by rewrite Hg. Qed.

Lemma set_truthy_true p : set_truthy p = true ↔ p ≠ ∅.
Proof. unfold set_truthy. by rewrite bool_decide_eq_true. Qed.

Lemma set_truthy_empty : set_truthy ∅ = false.
Proof. unfold set_truthy. by rewrite bool_decide_eq_false; intros []. Qed.

(** A populated entry answers the lookup; nothing changes. *)
Lemma get_prefixes_hit msg g w p :
  Message_guild msg = Some g →
  cached_prefixes (bot w) !! Guild_id g = Some p → p ≠ ∅ →
  _get_prefixes msg w = (inr p, w).
Proof.
  intros Hg Hc Hp. unfold _get_prefixes, bind, cached_prefixes_getitem.
  rewrite Hg, Hc. apply set_truthy_true in Hp. by rewrite Hp.
Qed.

Lemma after_fetch_calls k w :
  store_calls (db (after_fetch k w)) = store_calls (db w) ++ [k].
Proof.
  unfold after_fetch, cached_prefixes_getitem.
  by destruct (cached_prefixes (bot w) !! k).
Qed.

Lemma after_fetch_user k w : user (bot (after_fetch k w)) = user (bot w).
Proof.
  unfold after_fetch, cached_prefixes_getitem.
  by destruct (cached_prefixes (bot w) !! k).
Qed.

Lemma after_fetch_cached k w k' :
  cached_for (after_fetch k w) k' = cached_for w k'.
Proof.
  unfold after_fetch, cached_prefixes_getitem, cached_for.
  destruct (cached_prefixes (bot w) !! k) eqn:Hk; [done|]. simpl.
  destruct (decide (k = k')) as [->|Hne].
  - by rewrite lookup_insert_eq, Hk.
  - by rewrite lookup_insert_ne.
Qed.

(** The [defaultdict] read leaves an empty entry where there was none. *)
Lemma after_fetch_materialises k w :
  cached_prefixes (bot w) !! k = None →
  cached_prefixes (bot (after_fetch k w)) !! k = Some ∅.
Proof.
  intros Hk. unfold after_fetch, cached_prefixes_getitem. rewrite Hk. simpl.
  apply lookup_insert_eq.
Qed.

Lemma after_fetch_lookup_ne k w k' :
  k ≠ k' →
  cached_prefixes (bot (after_fetch k w)) !! k' = cached_prefixes (bot w) !! k'.
Proof.
  intros Hne. unfold after_fetch, cached_prefixes_getitem.
  destruct (cached_prefixes (bot w) !! k) eqn:Hk; [done|]. simpl.
  by rewrite lookup_insert_ne.
Qed.

(** An empty entry sends the lookup to the store. *)
Lemma get_prefixes_miss msg g w :
  Message_guild msg = Some g →
  cached_for w (Guild_id g) = ∅ →
  _get_prefixes msg w =
    match store_get (db w) (Guild_id g) with
    | inl e => (inl e, after_fetch (Guild_id g) w)
    | inr cfg => (inr (prefixes cfg), after_populate (Guild_id g) (prefixes cfg) w)
    end.
Proof.
  intros Hg Hc. unfold after_populate, after_fetch.
  unfold _get_prefixes, bind. rewrite Hg.
  unfold cached_for in Hc. unfold cached_prefixes_getitem.
  destruct (cached_prefixes (bot w) !! Guild_id g) as [p|] eqn:Hk; simpl in *.
  - subst p. rewrite set_truthy_empty. unfold GuildConfig_get. simpl.
    by destruct (store_get (db w) (Guild_id g)).
  - rewrite set_truthy_empty. unfold GuildConfig_get. simpl.
    by destruct (store_get (db w) (Guild_id g)).
Qed.

(** Either case of a guild message, by the truth value of the entry. *)
Lemma cached_for_cases w k :
  cached_for w k = ∅ ∨ ∃ p, cached_prefixes (bot w) !! k = Some p ∧ p ≠ ∅.
Proof.
  unfold cached_for. destruct (cached_prefixes (bot w) !! k) as [p|]; [|by left].
  destruct (decide (p = ∅)); [by left|right; eauto].
Qed.

(** The resolver in terms of the lookup's outcome. *)
Lemma resolver_by_outcome msg w :
  realms_playerlist_prefixes msg w =
    match _get_prefixes msg w with
    | (inr p, w') => (inr (mention_prefixes (bot w) ∪ p), w')
    | (inl e, w') =>
        match e with
        | DoesNotExist | ConfigurationError | KeyError | AsyncioTimeoutError =>
            (inr (mention_prefixes (bot w) ∪ ∅), w')
        | AttributeError => (inr (mention_prefixes (bot w) ∪ {[ "!?" ]}), w')
        | _ => (inl e, w')
        end
    end.
Proof.
  unfold realms_playerlist_prefixes, bind, gets, try_except.
  destruct (_get_prefixes msg w) as [[e|p] w']; [|done].
  by destruct e.
Qed.

End Resolver.

Section ResolverClaims.

Implicit Types (msg : Message) (w : World) (g : Guild) (p : gset string).

Lemma mention_prefixes_nonempty (b : RealmBot) : mention_prefixes b ≠ ∅.
Proof. unfold mention_prefixes. set_solver. Qed.

(** C7. A message without an originating community resolves to exactly
    the two mention prefixes, [f"{bot.user.mention} "] and
    [f"<@!{bot.user.id}> "]: the set is not empty, whatever the cache
    holds none of it is returned, and the world is left as it was, so the
    store has not been called. *)
Theorem C7_no_guild_mentions_only msg w :
  Message_guild msg = None →
  realms_playerlist_prefixes msg w =
    (inr {[ ClientUser_mention (user (bot w)) +:+ " ";
            "<@!" +:+ pretty (ClientUser_id (user (bot w))) +:+ "> " ]}, w)
  ∧ ({[ ClientUser_mention (user (bot w)) +:+ " ";
        "<@!" +:+ pretty (ClientUser_id (user (bot w))) +:+ "> " ]} : gset string) ≠ ∅
  ∧ store_calls (db (realms_playerlist_prefixes msg w).2) = store_calls (db w).
Proof.
  intros Hg.
  assert (realms_playerlist_prefixes msg w = (inr (mention_prefixes (bot w)), w)) as Hrun.
  { rewrite resolver_by_outcome, (get_prefixes_no_guild _ _ Hg).
    by rewrite (right_id_L ∅ (∪)). }
  split; [exact Hrun|]. split.
  - apply mention_prefixes_nonempty.
  - by rewrite Hrun.
Qed.

Lemma C7_no_guild_witness :
  realms_playerlist_prefixes direct_message (sample_world (λ _, inl KeyError)) =
    (inr {[ "<@7> "; "<@!7> " ]}, sample_world (λ _, inl KeyError))
  ∧ ({[ "<@7> "; "<@!7> " ]} : gset string) ≠ ∅
  ∧ store_calls (db (realms_playerlist_prefixes direct_message
                       (sample_world (λ _, inl KeyError))).2) = [].
Proof.
  apply (C7_no_guild_mentions_only direct_message (sample_world (λ _, inl KeyError))).
  reflexivity.
Defined.

(** C1. Whatever the message, when the custom-prefix lookup succeeds or
    raises one of the five classes the resolver names ([DoesNotExist],
    [AttributeError], the class the source comments as "no guild",
    [ConfigurationError], [KeyError], [asyncio.TimeoutError]), the resolver
    returns a set and raises nothing; the set contains both mention
    prefixes and is therefore not empty. The custom part is the lookup's
    result on success, the single prefix "!?" after [AttributeError], and
    empty after each of the other four. *)
Theorem C1_resolver_returns_normally msg w (outcome : exn + gset string) :
  (_get_prefixes msg w).1 = outcome →
  (∀ e, outcome = inl e → handled e) →
  ∃ custom w',
    realms_playerlist_prefixes msg w = (inr (mention_prefixes (bot w) ∪ custom), w')
    ∧ ClientUser_mention (user (bot w)) +:+ " " ∈ mention_prefixes (bot w) ∪ custom
    ∧ "<@!" +:+ pretty (ClientUser_id (user (bot w))) +:+ "> "
        ∈ mention_prefixes (bot w) ∪ custom
    ∧ mention_prefixes (bot w) ∪ custom ≠ ∅
    ∧ match outcome with
      | inr p => custom = p
      | inl AttributeError => custom = {[ "!?" ]}
      | inl _ => custom = ∅
      end.
Proof.
  intros Hout Hhandled.
  assert (∀ custom, ClientUser_mention (user (bot w)) +:+ " "
                      ∈ mention_prefixes (bot w) ∪ custom
                    ∧ "<@!" +:+ pretty (ClientUser_id (user (bot w))) +:+ "> "
                        ∈ mention_prefixes (bot w) ∪ custom
                    ∧ mention_prefixes (bot w) ∪ custom ≠ ∅) as Hmention.
  { intros custom. unfold mention_prefixes. set_solver. }
  pose proof (resolver_by_outcome msg w) as Hrun.
  destruct (_get_prefixes msg w) as [[e|p] w'] eqn:Hlookup; simpl in Hout; subst outcome.
  - specialize (Hhandled e eq_refl). unfold handled in Hhandled.
    destruct e;
      try (exfalso; rewrite !elem_of_cons, elem_of_nil in Hhandled;
           intuition discriminate);
      eexists _, w'; (split; [exact Hrun|]);
      (split; [apply Hmention|]); (split; [apply Hmention|]);
      (split; [apply Hmention|reflexivity]).
  - exists p, w'. split; [exact Hrun|].
    split; [apply Hmention|]. split; [apply Hmention|].
    split; [apply Hmention|reflexivity].
Qed.

Lemma C1_resolver_witness :
  ∃ custom w',
    realms_playerlist_prefixes (msg_in 42) (sample_world (λ _, inl AttributeError)) =
      (inr (mention_prefixes sample_bot ∪ custom), w')
    ∧ "<@7> " ∈ mention_prefixes sample_bot ∪ custom
    ∧ "<@!7> " ∈ mention_prefixes sample_bot ∪ custom
    ∧ mention_prefixes sample_bot ∪ custom ≠ ∅
    ∧ custom = {[ "!?" ]}.
Proof.
  apply (C1_resolver_returns_normally (msg_in 42)
           (sample_world (λ _, inl AttributeError)) (inl AttributeError)).
  - reflexivity.
  - intros e [= <-]. unfold handled. rewrite !elem_of_cons. tauto.
Defined.

Lemma mention_prefixes_user (b b' : RealmBot) :
  user b = user b' → mention_prefixes b = mention_prefixes b'.
Proof. unfold mention_prefixes. by intros ->. Qed.

(** The resolver changes the world only through the lookup. *)
Lemma resolver_world msg w :
  (realms_playerlist_prefixes msg w).2 = (_get_prefixes msg w).2.
Proof.
  rewrite resolver_by_outcome.
  destruct (_get_prefixes msg w) as [[e|p] w']; [|done]. by destruct e.
Qed.

Lemma cached_for_store_now get w k : cached_for (store_now get w) k = cached_for w k.
Proof. done. Qed.

(** C5. For a community whose cache entry holds no prefixes and whose
    record the store reports as missing, the resolver returns the mention
    prefixes alone and raises nothing; the cache still holds no prefixes
    for the community afterwards, and once the record exists the next
    resolution returns its prefixes. *)
Theorem C5_not_found_leaves_cache_empty msg g w :
  Message_guild msg = Some g →
  cached_for w (Guild_id g) = ∅ →
  store_get (db w) (Guild_id g) = inl DoesNotExist →
  ∃ w',
    realms_playerlist_prefixes msg w = (inr (mention_prefixes (bot w)), w')
    ∧ cached_for w' (Guild_id g) = ∅
    ∧ ∀ get cfg,
        get (Guild_id g) = inr cfg →
        (realms_playerlist_prefixes msg (store_now get w')).1 =
          inr (mention_prefixes (bot w) ∪ prefixes cfg).
Proof.
  intros Hg Hempty Hmissing. exists (after_fetch (Guild_id g) w).
  split; [|split].
  - rewrite resolver_by_outcome, (get_prefixes_miss _ _ _ Hg Hempty), Hmissing.
    by rewrite (right_id_L ∅ (∪)).
  - by rewrite after_fetch_cached.
  - intros get cfg Hcfg.
    rewrite resolver_by_outcome, (get_prefixes_miss _ g).
    + simpl. rewrite Hcfg. simpl. f_equal. f_equal.
      apply mention_prefixes_user, after_fetch_user.
    + done.
    + by rewrite cached_for_store_now, after_fetch_cached.
Qed.

Lemma C5_not_found_witness :
  ∃ w',
    realms_playerlist_prefixes (msg_in 42) (sample_world (λ _, inl DoesNotExist)) =
      (inr (mention_prefixes sample_bot), w')
    ∧ cached_for w' 42 = ∅
    ∧ ∀ get cfg,
        get 42%Z = inr cfg →
        (realms_playerlist_prefixes (msg_in 42) (store_now get w')).1 =
          inr (mention_prefixes sample_bot ∪ prefixes cfg).
Proof.
  apply (C5_not_found_leaves_cache_empty (msg_in 42) {| Guild_id := 42 |}
           (sample_world (λ _, inl DoesNotExist))); reflexivity.
Defined.

(** A populated entry survives every resolution, and no resolution
    fetches its community again. *)
Lemma resolver_keeps_populated msg w k p :
  cached_prefixes (bot w) !! k = Some p → p ≠ ∅ →
  cached_prefixes (bot (realms_playerlist_prefixes msg w).2) !! k = Some p
  ∧ fetch_count k (realms_playerlist_prefixes msg w).2 = fetch_count k w.
Proof.
  intros Hk Hp. rewrite resolver_world.
  destruct (Message_guild msg) as [g|] eqn:Hg;
    [|by rewrite (get_prefixes_no_guild _ _ Hg)].
  destruct (decide (Guild_id g = k)) as [<-|Hne];
    [by rewrite (get_prefixes_hit _ _ _ _ Hg Hk Hp)|].
  destruct (cached_for_cases w (Guild_id g)) as [Hempty|(q & Hq & Hqne)];
    [|by rewrite (get_prefixes_hit _ _ _ _ Hg Hq Hqne)].
  rewrite (get_prefixes_miss _ _ _ Hg Hempty).
  assert (fetch_count k (after_fetch (Guild_id g) w) = fetch_count k w) as Hcount.
  { unfold fetch_count. rewrite after_fetch_calls, filter_app, length_app.
    rewrite filter_cons_False, filter_nil by congruence. simpl. lia. }
  destruct (store_get (db w) (Guild_id g)) as [e|cfg]; cbn [snd].
  - by rewrite after_fetch_lookup_ne.
  - unfold after_populate, update_bot, fetch_count. cbn [bot db set_cached_prefixes cached_prefixes].
    rewrite lookup_insert_ne by done. by rewrite after_fetch_lookup_ne.
Qed.

Lemma run_resolutions_keeps_populated msgs w k p :
  cached_prefixes (bot w) !! k = Some p → p ≠ ∅ →
  cached_prefixes (bot (run_resolutions msgs w)) !! k = Some p
  ∧ fetch_count k (run_resolutions msgs w) = fetch_count k w.
Proof.
  revert w. induction msgs as [|msg msgs IH]; intros w Hk Hp; [done|]. simpl.
  destruct (resolver_keeps_populated msg w k p Hk Hp) as [Hk' Hcount].
  destruct (IH _ Hk' Hp) as [Hk'' Hcount']. split; [done|congruence].
Qed.

Lemma resolver_user msg w :
  user (bot (realms_playerlist_prefixes msg w).2) = user (bot w).
Proof.
  rewrite resolver_world.
  destruct (Message_guild msg) as [g|] eqn:Hg;
    [|by rewrite (get_prefixes_no_guild _ _ Hg)].
  destruct (cached_for_cases w (Guild_id g)) as [Hempty|(q & Hq & Hqne)];
    [|by rewrite (get_prefixes_hit _ _ _ _ Hg Hq Hqne)].
  rewrite (get_prefixes_miss _ _ _ Hg Hempty).
  destruct (store_get (db w) (Guild_id g)); cbn [snd]; [|unfold after_populate, update_bot; cbn [bot set_cached_prefixes user]]; apply after_fetch_user.
Qed.

Lemma run_resolutions_user msgs w : user (bot (run_resolutions msgs w)) = user (bot w).
Proof.
  revert w. induction msgs as [|msg msgs IH]; intros w; [done|]. simpl.
  by rewrite IH, resolver_user.
Qed.

(** C6 does not hold as stated: a record whose prefix set is empty is
    fetched and stored by the first resolution, and the second resolution
    for the same community calls the store again. *)
Lemma C6_empty_prefix_set_refetched :
  let cfg := {| guild_id := 42; prefixes := ∅ |} in
  let w := sample_world (λ _, inr cfg) in
  let w1 := (realms_playerlist_prefixes (msg_in 42) w).2 in
  let w2 := (realms_playerlist_prefixes (msg_in 42) w1).2 in
  store_get (db w) 42%Z = inr cfg
  ∧ store_calls (db w1) = [42%Z]
  ∧ cached_prefixes (bot w1) !! 42%Z = Some (prefixes cfg)
  ∧ store_calls (db w2) = [42%Z; 42%Z]
  ∧ store_calls (db w2) ≠ store_calls (db w1).
Proof. repeat split; try reflexivity. discriminate. Qed.

(** C6, amended. When a resolution finds no cached prefixes, fetches the
    community's record and the record's prefix set is not empty, the call
    makes one store round-trip and stores that set in the cache; after
    that, over any sequence of further resolutions, the count of
    round-trips for the community does not grow, and every resolution for
    the community returns the stored prefixes together with the mention
    prefixes. *)
Theorem C6_populated_cache_is_not_refetched msg g w cfg :
  Message_guild msg = Some g →
  cached_for w (Guild_id g) = ∅ →
  store_get (db w) (Guild_id g) = inr cfg →
  prefixes cfg ≠ ∅ →
  ∃ w1,
    realms_playerlist_prefixes msg w = (inr (mention_prefixes (bot w) ∪ prefixes cfg), w1)
    ∧ store_calls (db w1) = store_calls (db w) ++ [Guild_id g]
    ∧ cached_prefixes (bot w1) !! Guild_id g = Some (prefixes cfg)
    ∧ ∀ (msgs : list Message) (msg' : Message) (g' : Guild),
        Message_guild msg' = Some g' → Guild_id g' = Guild_id g →
        fetch_count (Guild_id g) (run_resolutions (msgs ++ [msg']) w1)
          = fetch_count (Guild_id g) w1
        ∧ (realms_playerlist_prefixes msg' (run_resolutions msgs w1)).1
          = inr (mention_prefixes (bot w) ∪ prefixes cfg).
Proof.
  intros Hg Hempty Hcfg Hne.
  exists (after_populate (Guild_id g) (prefixes cfg) w).
  assert (cached_prefixes (bot (after_populate (Guild_id g) (prefixes cfg) w))
            !! Guild_id g = Some (prefixes cfg)) as Hstored.
  { unfold after_populate, update_bot. simpl. apply lookup_insert_eq. }
  split; [|split; [|split]].
  - by rewrite resolver_by_outcome, (get_prefixes_miss _ _ _ Hg Hempty), Hcfg.
  - unfold after_populate, update_bot. simpl. apply after_fetch_calls.
  - exact Hstored.
  - intros msgs msg' g' Hg' Hsame. split.
    + by apply (run_resolutions_keeps_populated (msgs ++ [msg']) _ _ _ Hstored).
    + destruct (run_resolutions_keeps_populated msgs _ _ _ Hstored Hne) as [Hk _].
      rewrite resolver_by_outcome.
      rewrite (get_prefixes_hit _ g' _ (prefixes cfg) Hg'); [|by rewrite Hsame|done]. simpl. f_equal. f_equal.
      apply mention_prefixes_user. rewrite run_resolutions_user.
      unfold after_populate, update_bot. simpl. apply after_fetch_user.
Qed.

Lemma C6_populated_cache_witness :
  let cfg := {| guild_id := 42; prefixes := {[ "!?" ]} |} in
  let w := sample_world (λ _, inr cfg) in
  ∃ w1,
    realms_playerlist_prefixes (msg_in 42) w =
      (inr (mention_prefixes (bot w) ∪ prefixes cfg), w1)
    ∧ store_calls (db w1) = store_calls (db w) ++ [42%Z]
    ∧ cached_prefixes (bot w1) !! 42%Z = Some (prefixes cfg)
    ∧ ∀ (msgs : list Message) (msg' : Message) (g' : Guild),
        Message_guild msg' = Some g' → Guild_id g' = 42%Z →
        fetch_count 42 (run_resolutions (msgs ++ [msg']) w1) = fetch_count 42 w1
        ∧ (realms_playerlist_prefixes msg' (run_resolutions msgs w1)).1
          = inr (mention_prefixes (bot w) ∪ prefixes cfg).
Proof.
  intros cfg w.
  apply (C6_populated_cache_is_not_refetched (msg_in 42) {| Guild_id := 42 |} w cfg);
    try reflexivity.
  subst cfg. simpl. apply non_empty_singleton_L.
Defined.

End ResolverClaims.

(** ** The admission gate *)

(** C2. While the bot is not ready, or while [init_load] is still set,
    every command is rejected, whoever the author is. Once both have
    cleared: the operator is accepted in the restricted community for any
    command; another user in the restricted community is rejected for a
    command named neither "help" nor "ping"; another user in any other
    community is accepted. *)
Theorem C2_admission_gate (DEV_GUILD_ID : Z) (ctx : Context) :
  (is_ready (ctx_bot ctx) = false ∨ init_load (ctx_bot ctx) = true →
   global_checks DEV_GUILD_ID ctx = inr false)
  ∧ (is_ready (ctx_bot ctx) = true → init_load (ctx_bot ctx) = false →
     ∀ guild operator,
       ctx_guild ctx = Some guild → owner (ctx_bot ctx) = Some operator →
       (User_id (ctx_author ctx) = User_id operator →
        Guild_id guild = DEV_GUILD_ID →
        global_checks DEV_GUILD_ID ctx = inr true)
       ∧ (User_id (ctx_author ctx) ≠ User_id operator →
          Guild_id guild = DEV_GUILD_ID →
          ∀ cmd, ctx_command ctx = Some cmd →
                 qualified_name cmd ≠ "help" → qualified_name cmd ≠ "ping" →
                 global_checks DEV_GUILD_ID ctx = inr false)
       ∧ (User_id (ctx_author ctx) ≠ User_id operator →
          Guild_id guild ≠ DEV_GUILD_ID →
          global_checks DEV_GUILD_ID ctx = inr true)).
Proof.
  unfold global_checks, restricted_and_not_allowed. split.
  - intros [-> | Hload]; [done|].
    destruct (is_ready (ctx_bot ctx)); simpl; [|done]. by rewrite Hload.
  - intros -> -> guild operator -> ->. simpl. split; [|split].
    + intros Hop _. by rewrite bool_decide_eq_true_2.
    + intros Hop Hdev cmd -> Hhelp Hping.
      rewrite (bool_decide_eq_false_2 _ Hop), (bool_decide_eq_true_2 _ Hdev). simpl.
      rewrite bool_decide_eq_false_2; [done|].
      rewrite !elem_of_cons, elem_of_nil. tauto.
    + intros Hop Hdev.
      by rewrite (bool_decide_eq_false_2 _ Hop), (bool_decide_eq_false_2 _ Hdev).
Qed.

Lemma C2_admission_gate_witness :
  global_checks 99 (ctx_of starting_bot (Some 99%Z) 1 "playerlist") = inr false
  ∧ global_checks 99 (ctx_of sample_bot (Some 99%Z) 1 "playerlist") = inr true
  ∧ global_checks 99 (ctx_of sample_bot (Some 99%Z) 2 "playerlist") = inr false
  ∧ global_checks 99 (ctx_of sample_bot (Some 5%Z) 2 "playerlist") = inr true.
Proof.
  split; [|split; [|split]].
  - destruct (C2_admission_gate 99 (ctx_of starting_bot (Some 99%Z) 1 "playerlist"))
      as [Hstartup _].
    apply Hstartup. right. reflexivity.
  - destruct (C2_admission_gate 99 (ctx_of sample_bot (Some 99%Z) 1 "playerlist"))
      as [_ Hcleared].
    destruct (Hcleared eq_refl eq_refl {| Guild_id := 99 |} {| User_id := 1 |}
                eq_refl eq_refl) as (Hoperator & _ & _).
    apply Hoperator; reflexivity.
  - destruct (C2_admission_gate 99 (ctx_of sample_bot (Some 99%Z) 2 "playerlist"))
      as [_ Hcleared].
    destruct (Hcleared eq_refl eq_refl {| Guild_id := 99 |} {| User_id := 1 |}
                eq_refl eq_refl) as (_ & Hrestricted & _).
    apply (Hrestricted ltac:(discriminate) eq_refl {| qualified_name := "playerlist" |});
      [reflexivity|discriminate|discriminate].
  - destruct (C2_admission_gate 99 (ctx_of sample_bot (Some 5%Z) 2 "playerlist"))
      as [_ Hcleared].
    destruct (Hcleared eq_refl eq_refl {| Guild_id := 5 |} {| User_id := 1 |}
                eq_refl eq_refl) as (_ & _ & Hother).
    apply Hother; discriminate.
Defined.

(** C4 does not hold as stated: with startup complete, a command sent
    by the operator in a direct message (no community) is rejected, since
    the guild test comes before the operator test. *)
Lemma C4_operator_direct_message_rejected :
  let ctx := ctx_of sample_bot None 1 "playerlist" in
  owner (ctx_bot ctx) = Some (ctx_author ctx)
  ∧ is_ready (ctx_bot ctx) = true
  ∧ init_load (ctx_bot ctx) = false
  ∧ ctx_guild ctx = None
  ∧ global_checks 99 ctx = inr false.
Proof. repeat split. Qed.

(** C4, amended. A context whose author is the operator is accepted
    exactly when the bot is ready, [init_load] has cleared and the message
    has an originating community; the community and the command play no
    part. An operator's direct message is therefore rejected, and so is
    every operator command before startup completes. *)
Theorem C4_operator_admitted_within_guilds (DEV_GUILD_ID : Z) (ctx : Context) (operator : User) :
  owner (ctx_bot ctx) = Some operator →
  User_id (ctx_author ctx) = User_id operator →
  global_checks DEV_GUILD_ID ctx =
    inr (is_ready (ctx_bot ctx) && negb (init_load (ctx_bot ctx))
         && bool_decide (is_Some (ctx_guild ctx))).
Proof.
  intros Hown Hop. unfold global_checks. rewrite Hown. simpl.
  destruct (is_ready (ctx_bot ctx)); [|done].
  destruct (init_load (ctx_bot ctx)); [done|]. simpl.
  destruct (ctx_guild ctx); [|done].
  by rewrite (bool_decide_eq_true_2 _ Hop).
Qed.

Lemma C4_operator_admitted_witness :
  global_checks 99 (ctx_of sample_bot (Some 5%Z) 1 "playerlist") = inr true.
Proof.
  apply (C4_operator_admitted_within_guilds 99
           (ctx_of sample_bot (Some 5%Z) 1 "playerlist") {| User_id := 1 |});
    reflexivity.
Defined.

(** ** The invocation context *)

Lemma fetch_config_memoized (i : Invocation) (c : GuildConfig) :
  guild_config (self i) = Some c → fetch_config i = (inr c, i).
Proof. intros Hmemo. unfold fetch_config, bind, gets. by rewrite Hmemo. Qed.

Lemma fetch_config_times_memoized (n : nat) (i : Invocation) (c : GuildConfig) :
  guild_config (self i) = Some c →
  fetch_config_times n i = (replicate n (inr c), i).
Proof.
  intros Hmemo. induction n as [|n IH]; [done|]. cbn [fetch_config_times].
  rewrite (fetch_config_memoized _ _ Hmemo). cbn [fst snd]. by rewrite IH.
Qed.

(** C9 does not hold as stated: when the store raises, nothing is
    memoized and nothing is returned, and the second call on the same
    context goes to the store again: two round-trips in one invocation. *)
Lemma C9_failed_fetch_is_repeated :
  let i := sample_invocation (λ _, inl DoesNotExist) in
  let r := fetch_config_times 2 i in
  r.1 = [inl DoesNotExist; inl DoesNotExist]
  ∧ guild_config (self (fetch_config i).2) = None
  ∧ store_calls (inv_db r.2) = [42%Z; 42%Z].
Proof. repeat split. Qed.

(** C9, amended. On a context with nothing memoized, the first call
    makes exactly one store round-trip. When the store returns the
    community's record, the call memoizes and returns it, and any number of
    further calls return the memoized record and leave the state, and so
    the store's call count, unchanged. When the store raises, the call
    raises the same exception and memoizes nothing. *)
Theorem C9_successful_fetch_is_memoized (i : Invocation) :
  guild_config (self i) = None →
  ∃ i1,
    (fetch_config i).2 = i1
    ∧ store_calls (inv_db i1) = store_calls (inv_db i) ++ [Guild_id (guild (self i))]
    ∧ match store_get (inv_db i) (Guild_id (guild (self i))) with
      | inr cfg =>
          (fetch_config i).1 = inr cfg
          ∧ guild_config (self i1) = Some cfg
          ∧ ∀ n, fetch_config_times n i1 = (replicate n (inr cfg), i1)
      | inl e =>
          (fetch_config i).1 = inl e
          ∧ guild_config (self i1) = None
      end.
Proof.
  intros Hmemo.
  unfold fetch_config, bind, gets, GuildConfig_get, modify.
  rewrite Hmemo. simpl.
  destruct (store_get (inv_db i) (Guild_id (guild (self i)))) as [e|cfg]; simpl.
  - eexists. split; [reflexivity|]. split; [done|]. split; [done|]. exact Hmemo.
  - eexists. split; [reflexivity|]. split; [done|]. split; [done|]. split; [done|].
    intros n. by apply fetch_config_times_memoized.
Qed.

Lemma C9_successful_fetch_witness :
  let cfg := {| guild_id := 42; prefixes := {[ "!?" ]} |} in
  let i := sample_invocation (λ _, inr cfg) in
  ∃ i1,
    (fetch_config i).2 = i1
    ∧ store_calls (inv_db i1) = [42%Z]
    ∧ (fetch_config i).1 = inr cfg
    ∧ guild_config (self i1) = Some cfg
    ∧ ∀ n, fetch_config_times n i1 = (replicate n (inr cfg), i1).
Proof.
  intros cfg i.
  apply (C9_successful_fetch_is_memoized i). reflexivity.
Defined.

(** ** The embed validator *)

Section EmbedLimits.

Implicit Types (limit : nat) (s : pystr) (o : option pystr).

Lemma str_over_false limit s : str_over limit s = false ↔ (length s ≤ limit)%nat.
Proof.
  unfold str_over. destruct s as [|c s].
  - simpl. split; [lia|done].
  - rewrite bool_decide_eq_false_2 by done. simpl.
    rewrite bool_decide_eq_false. lia.
Qed.

Lemma opt_over_false limit o : opt_over limit o = false ↔ (len_opt o ≤ limit)%nat.
Proof.
  destruct o as [s|]; simpl; [apply str_over_false|]. split; [lia|done].
Qed.

Lemma author_over_false limit (a : option EmbedAuthor) :
  from_option (λ x, opt_over limit (author_name x)) false a = false
  ↔ (len_opt (a ≫= author_name) ≤ limit)%nat.
Proof. destruct a as [x|]; simpl; [apply opt_over_false|]. split; [lia|done]. Qed.

Lemma footer_over_false limit (f : option EmbedFooter) :
  from_option (λ x, opt_over limit (footer_text x)) false f = false
  ↔ (len_opt (f ≫= footer_text) ≤ limit)%nat.
Proof. destruct f as [x|]; simpl; [apply opt_over_false|]. split; [lia|done]. Qed.

Lemma fields_within_true (fs : list EmbedField) :
  fields_within fs = true
  ↔ Forall (λ f, length (field_name f) ≤ 1024 ∧ length (field_value f) ≤ 2048)%nat fs.
Proof.
  induction fs as [|f fs IH]; simpl; [by split|].
  rewrite Forall_cons, <- IH, <- !str_over_false.
  destruct (str_over 1024 (field_name f)), (str_over 2048 (field_value f));
    intuition congruence.
Qed.

End EmbedLimits.

(** C10. [embed_check] answers true exactly when the payload is within
    every ceiling: total length at most 6000, title 256, description 4096,
    author name 256, footer text 2048, at most 25 fields, each with a name
    of at most 1024 and a value of at most 2048 characters. A payload
    whose description has 4097 characters is rejected; the payload with a
    4096-character description and nothing else is accepted. *)
Theorem C10_embed_check_limits :
  (∀ e : Embed, embed_check e = true ↔ within_limits e)
  ∧ (∀ (e : Embed) (d : pystr),
       description e = Some d → length d = 4097%nat → embed_check e = false)
  ∧ embed_check (description_only 4097) = false
  ∧ embed_check (description_only 4096) = true.
Proof.
  assert (∀ e : Embed, embed_check e = true ↔ within_limits e) as Hiff.
  { intros e. unfold embed_check, within_limits.
    rewrite <- opt_over_false, <- opt_over_false.
    rewrite <- author_over_false, <- footer_over_false, <- fields_within_true.
    rewrite <- (Nat.nlt_ge _ (Embed_len e)), <- (Nat.nlt_ge _ (length (fields e))).
    destruct (bool_decide (6000 < Embed_len e)%nat) eqn:Htotal.
    { apply bool_decide_eq_true in Htotal. intuition congruence. }
    apply bool_decide_eq_false in Htotal.
    destruct (opt_over 256 (title e)); [intuition congruence|].
    destruct (opt_over 4096 (description e)); [intuition congruence|].
    destruct (from_option _ false (author e)); [intuition congruence|].
    destruct (from_option _ false (footer e)); [intuition congruence|].
    destruct (fields e) as [|f fs] eqn:Hfields.
    { rewrite bool_decide_eq_true_2 by done. cbn [negb length fields_within].
      pose proof (Nat.nlt_0_r 25). intuition congruence. }
    rewrite bool_decide_eq_false_2 by done. cbn [negb].
    destruct (bool_decide (25 < length (f :: fs))%nat) eqn:Hcount.
    { apply bool_decide_eq_true in Hcount. intuition congruence. }
    apply bool_decide_eq_false in Hcount. intuition congruence. }
  split; [exact Hiff|]. split; [|split].
  - intros e d Hd Hlen. destruct (embed_check e) eqn:Hcheck; [|done].
    apply Hiff in Hcheck. destruct Hcheck as (_ & _ & Hdesc & _).
    rewrite Hd in Hdesc. simpl in Hdesc. rewrite Hlen in Hdesc.
    exfalso. revert Hdesc. apply Nat.lt_nge. apply Nat.lt_succ_diag_r.
  - vm_compute. reflexivity.
  - vm_compute. reflexivity.
Qed.

Lemma C10_embed_check_witness :
  embed_check {| title := Some (codes "Online"); description := Some (replicate 4097 97%N);
                 author := None; footer := None; fields := [] |} = false
  ∧ within_limits (description_only 4096).
Proof.
  destruct C10_embed_check_limits as (Hiff & Hreject & _ & Haccept).
  split.
  - apply (Hreject _ (replicate 4097 97%N)); [reflexivity|].
    apply length_replicate.
  - apply Hiff. exact Haccept.
Defined.

(** ** Slicing and joining *)

Section Slices.

Context {A : Type}.
Implicit Types (l : list A) (n m : nat).

Lemma concat_slices_upto n l m :
  concat ((λ k, take n (drop (k * n) l)) <$> seq 0 m) = take (m * n) l.
Proof.
  induction m as [|m IH]; [done|].
  rewrite seq_S, fmap_app, concat_app, IH. simpl.
  rewrite app_nil_r, take_take_drop. f_equal. lia.
Qed.

Lemma slices_unfold n l :
  slices n l =
    (λ k, take n (drop (k * n) l)) <$> seq 0 ((length l + n - 1) / n).
Proof. unfold slices, range_step. by rewrite <- list_fmap_compose. Qed.

Lemma slice_count_covers n len :
  (0 < n → len ≤ (len + n - 1) / n * n)%nat.
Proof.
  intros Hn.
  pose proof (Nat.div_mod (len + n - 1) n ltac:(lia)) as Hdiv.
  pose proof (Nat.mod_upper_bound (len + n - 1) n ltac:(lia)) as Hmod.
  nia.
Qed.

Lemma slice_start_inside n len k :
  (0 < n → k < (len + n - 1) / n → k * n < len)%nat.
Proof.
  intros Hn Hk.
  pose proof (Nat.div_mod (len + n - 1) n ltac:(lia)) as Hdiv.
  pose proof (Nat.mod_upper_bound (len + n - 1) n ltac:(lia)) as Hmod.
  nia.
Qed.

(** The slices, put end to end, are the list. *)
Lemma concat_slices n l : (0 < n)%nat → concat (slices n l) = l.
Proof.
  intros Hn. rewrite slices_unfold, concat_slices_upto.
  apply take_ge. by apply slice_count_covers.
Qed.

(** Every slice has at least one and at most [n] elements, all of [l]. *)
Lemma slices_bounds n l (P : A → Prop) :
  (0 < n)%nat → Forall P l →
  Forall (λ c, (1 ≤ length c ≤ n)%nat ∧ Forall P c) (slices n l).
Proof.
  intros Hn HP. rewrite slices_unfold. apply Forall_fmap, Forall_forall.
  intros k Hk. apply elem_of_seq in Hk. simpl.
  pose proof (slice_start_inside n (length l) k Hn ltac:(lia)) as Hstart.
  rewrite length_take, length_drop. split; [lia|].
  by apply Forall_take, Forall_drop.
Qed.

End Slices.

Section Joining.

Implicit Types (sep x z t : pystr) (l : list pystr).

Lemma join_cons sep x l : l ≠ [] → join sep (x :: l) = x ++ sep ++ join sep l.
Proof. by destruct l. Qed.

Lemma join_app sep l1 l2 :
  l1 ≠ [] → l2 ≠ [] → join sep (l1 ++ l2) = join sep l1 ++ sep ++ join sep l2.
Proof.
  intros H1 H2. induction l1 as [|x l1 IH]; [done|].
  destruct l1 as [|y l1].
  - simpl app. by rewrite join_cons.
  - rewrite <- app_comm_cons, !join_cons by done.
    rewrite IH by done. by rewrite <- !app_assoc.
Qed.

Lemma join_snoc_app sep l z t : join sep (l ++ [z ++ t]) = join sep (l ++ [z]) ++ t.
Proof.
  induction l as [|x l IH]; [done|].
  rewrite <- !app_comm_cons, !join_cons by (by destruct l).
  rewrite IH. by rewrite <- !app_assoc.
Qed.

(** Joining the joined groups is joining all their elements. *)
Lemma join_concat sep (gs : list (list pystr)) :
  Forall (λ g, g ≠ []) gs → join sep (join sep <$> gs) = join sep (concat gs).
Proof.
  induction 1 as [|g gs Hg Hgs IH]; [done|].
  destruct gs as [|g' gs].
  - simpl. by rewrite app_nil_r.
  - rewrite fmap_cons, join_cons by done. rewrite IH.
    change (concat (g :: g' :: gs)) with (g ++ concat (g' :: gs)).
    rewrite join_app; [done|done|].
    apply Forall_cons in Hgs as [Hg' _]. simpl. by destruct g'.
Qed.

End Joining.

(** ** Lines *)

Section Lines.

Implicit Types (cur s l rest : pystr) (ls : list pystr).

Lemma splitlines_from_app cur l rest :
  break_free l → splitlines_from cur (l ++ rest) = splitlines_from (cur ++ l) rest.
Proof.
  intros Hl. revert cur. induction Hl as [|c l Hc _ IH]; intros cur.
  - by rewrite app_nil_r.
  - simpl. rewrite Hc, IH. by rewrite <- app_assoc.
Qed.

Lemma splitlines_from_newline cur rest :
  splitlines_from cur (NL :: rest) = cur :: splitlines_from [] rest.
Proof. by destruct rest. Qed.

Lemma splitlines_from_end cur :
  cur ≠ [] → splitlines_from cur [] = [cur].
Proof. intros Hcur. simpl. by rewrite bool_decide_eq_false_2. Qed.

(** No line of [splitlines] contains a line boundary. *)
Lemma splitlines_from_break_free s :
  ∀ cur, break_free cur → Forall break_free (splitlines_from cur s).
Proof.
  induction s as [s IH] using (induction_ltof1 _ (@length N)). unfold ltof in IH.
  intros cur Hcur. destruct s as [|c rest]; simpl.
  - case_bool_decide; [done|]. by apply Forall_singleton.
  - destruct (is_linebreak c) eqn:Hc.
    + apply Forall_cons. split; [done|].
      destruct rest as [|c' rest']; [done|].
      case_bool_decide; (apply IH; [simpl; lia|constructor]).
    + apply IH; [simpl; lia|].
      apply Forall_app. split; [done|]. by apply Forall_singleton.
Qed.

Lemma splitlines_break_free s : Forall break_free (splitlines s).
Proof. apply splitlines_from_break_free. constructor. Qed.

(** Lines joined by newlines split back into the same lines, unless the
    last of them is empty. *)
Lemma splitlines_join ls :
  Forall break_free ls → last ls ≠ Some [] → splitlines (join [NL] ls) = ls.
Proof.
  unfold splitlines. induction 1 as [|x ls Hx Hls IH]; intros Hlast; [done|].
  destruct ls as [|y ls].
  - simpl in *. rewrite <- (app_nil_r x) at 1.
    rewrite (splitlines_from_app _ _ _ Hx). apply splitlines_from_end.
    simpl. intros ->. by apply Hlast.
  - rewrite join_cons by done.
    rewrite (splitlines_from_app _ _ _ Hx). cbn [app].
    rewrite splitlines_from_newline. f_equal. by apply IH.
Qed.

(** Newline-terminated lines split into those lines. *)
Lemma splitlines_terminated ls :
  Forall break_free ls → splitlines (terminated ls) = ls.
Proof.
  unfold splitlines, terminated. induction 1 as [|x ls Hx _ IH]; [done|].
  rewrite fmap_cons. simpl concat. rewrite <- app_assoc.
  rewrite (splitlines_from_app _ _ _ Hx). cbn [app].
  rewrite splitlines_from_newline. by rewrite IH.
Qed.

Lemma join_terminated ls : ls ≠ [] → join [NL] ls ++ [NL] = terminated ls.
Proof.
  unfold terminated. induction ls as [|x ls IH]; [done|]. intros _.
  destruct ls as [|y ls].
  - simpl. by rewrite app_nil_r.
  - rewrite join_cons by done.
    rewrite (fmap_cons _ x), concat_cons, <- !app_assoc.
    do 2 f_equal. by apply IH.
Qed.

Lemma fences_break_free : break_free (codes "```py") ∧ break_free (codes "```").
Proof. split; repeat constructor. Qed.

(** A code block is its lines between the two fence lines. *)
Lemma code_block_lines (grp : list pystr) :
  grp ≠ [] →
  code_block grp = join [NL] (codes "```py" :: grp ++ [codes "```"]).
Proof.
  intros Hgrp. unfold code_block, code_open, code_close.
  rewrite join_cons by (by destruct grp).
  rewrite join_app by done. simpl join. by rewrite <- !app_assoc.
Qed.

Lemma code_block_line_count (grp : list pystr) :
  grp ≠ [] → Forall break_free grp →
  length (splitlines (code_block grp)) = (length grp + 2)%nat.
Proof.
  intros Hgrp Hfree. rewrite code_block_lines by done.
  rewrite splitlines_join.
  - simpl. rewrite length_app. simpl. lia.
  - destruct fences_break_free as [Hopen Hclose].
    apply Forall_cons. split; [done|]. apply Forall_app. split; [done|].
    by apply Forall_singleton.
  - rewrite app_comm_cons, last_snoc. discriminate.
Qed.

End Lines.

(** ** Wrapping the groups *)

Section Wrapping.

Implicit Types (chunk : list pystr) (chunks : list (list pystr)).

(** On a non-empty group the two assignments succeed, and the joined
    result is the group's code block. *)
Lemma wrap_chunk_joined chunk :
  chunk ≠ [] →
  ∃ chunk', wrap_chunk chunk = inr chunk' ∧ join [NL] chunk' = code_block chunk.
Proof.
  intros Hne. destruct chunk as [|x l]; [done|]. clear Hne.
  unfold wrap_chunk, code_block. cbn [lookup list_lookup].
  destruct l as [|y l' _] using rev_ind.
  - cbn -[code_open code_close]. eexists. split; [done|].
    cbn [join]. by rewrite <- app_assoc.
  - cbn [insert list_insert].
    assert (length ((code_open ++ x) :: l' ++ [y]) - 1 = S (length l'))%nat as ->.
    { cbn [length]. rewrite length_app. simpl. lia. }
    assert (((code_open ++ x) :: l' ++ [y]) !! S (length l') = Some y) as ->.
    { cbn [lookup list_lookup]. apply list_lookup_middle. done. }
    eexists. split; [done|].
    assert (<[S (length l') := y ++ code_close]> ((code_open ++ x) :: l' ++ [y])
            = (code_open ++ x) :: l' ++ [y ++ code_close]) as ->.
    { cbn [insert list_insert]. f_equal.
      replace (length l') with (length l' + 0)%nat at 1 by lia.
      by rewrite (insert_app_r l' [y] 0). }
    rewrite !join_cons by (by destruct l').
    rewrite join_snoc_app. by rewrite <- !app_assoc.
Qed.

Lemma wrap_chunks_joined chunks :
  Forall (λ c, c ≠ []) chunks →
  ∃ chunks', wrap_chunks chunks = inr chunks'
             ∧ join [NL] <$> chunks' = code_block <$> chunks.
Proof.
  induction 1 as [|c cs Hc _ (cs' & Hcs & Hjoin)]; [by exists []|].
  destruct (wrap_chunk_joined c Hc) as (c' & Hwrap & Hblock).
  exists (c' :: cs'). cbn [wrap_chunks]. rewrite Hwrap, Hcs. split; [done|].
  by rewrite !fmap_cons, Hblock, Hjoin.
Qed.

(** The chunks of a rendered text: the code blocks of its line groups.
    No [IndexError] arises, since no group is empty. *)
Lemma error_chunks_blocks (text : pystr) :
  error_chunks text = inr (code_block <$> line_split text 20).
Proof.
  unfold error_chunks.
  destruct (wrap_chunks_joined (line_split text 20)) as (chunks' & Hwrap & Hjoin).
  - unfold line_split.
    eapply Forall_impl; [apply (slices_bounds 20 _ (λ _, True)); [lia|]|].
    + by apply Forall_true.
    + intros c [[Hlen _] _] ->. simpl in Hlen. lia.
  - by rewrite Hwrap, Hjoin.
Qed.

Lemma owner_messages_sends (cs : list pystr) : owner_messages (OwnerSend <$> cs) = cs.
Proof.
  unfold owner_messages. induction cs as [|c cs IH]; [done|].
  rewrite fmap_cons. cbn [omap list_omap to_owner]. f_equal. exact IH.
Qed.

Lemma owner_messages_notice (error : ErrorValue) (ctx : option ErrorCtx) :
  owner_messages
    match ctx with
    | None => []
    | Some c =>
        match ctx_kind c with
        | TextCommand => [CtxReply (user_notice error)]
        | Interaction => [InteractionSend (user_notice error)]
        | OtherCtx => []
        end
    end = [].
Proof. destruct ctx as [c|]; [|done]. by destruct (ctx_kind c). Qed.

(** What the operator receives on the non-transient path. *)
Lemma error_handle_delivery (error : ErrorValue) (ctx : option ErrorCtx) :
  server_disconnected error = false →
  ∃ sent,
    error_handle error ctx = inr sent
    ∧ owner_messages sent =
        jump_line ctx ++ (code_block <$> line_split (error_format error) 20).
Proof.
  intros Hkind. unfold error_handle. rewrite Hkind, error_chunks_blocks.
  eexists. split; [done|]. unfold owner_messages at 1. rewrite omap_app.
  change (omap to_owner ?l) with (owner_messages l).
  rewrite owner_messages_notice, app_nil_r.
  unfold msg_to_owner. rewrite owner_messages_sends.
  unfold jump_line. by destruct (ctx ≫= jump_url).
Qed.

End Wrapping.

(** ** The error pipeline *)

(** C3 does not hold as stated: a rendered text of twenty lines of a
    hundred characters is delivered as one chunk of 2029 characters and 22
    lines; the list of chunks is sent with [split=False], so nothing cuts
    it at 1950 characters, and the two fence lines come on top of the
    twenty lines of text. *)
Lemma C3_chunk_exceeds_both_bounds :
  let text := terminated (replicate 20 (replicate 100 120%N)) in
  ∃ chunk,
    error_handle (plain_error text) None = inr [OwnerSend chunk]
    ∧ length chunk = 2029%nat
    ∧ ¬ (length chunk ≤ 1950)%nat
    ∧ length (splitlines chunk) = 22%nat
    ∧ ¬ (length (splitlines chunk) ≤ 20)%nat.
Proof.
  eexists. split; [vm_compute; reflexivity|].
  split; [vm_compute; reflexivity|].
  split; [intros Hle; apply Nat.leb_le in Hle; vm_compute in Hle; discriminate|].
  split; [vm_compute; reflexivity|].
  intros Hle; apply Nat.leb_le in Hle; vm_compute in Hle; discriminate.
Qed.

(** A single long line is delivered whole: chunks can be arbitrarily long. *)
Lemma chunk_length_unbounded (n : nat) :
  ∃ text chunk,
    error_handle (plain_error text) None = inr [OwnerSend chunk]
    ∧ (n < length chunk)%nat.
Proof.
  exists (replicate (S n) 120%N), (code_block [replicate (S n) 120%N]).
  assert (splitlines (replicate (S n) 120%N) = [replicate (S n) 120%N]) as Hline.
  { apply (splitlines_join [replicate (S n) 120%N]); [|done].
    apply Forall_singleton, Forall_replicate. reflexivity. }
  split.
  - unfold error_handle, plain_error, server_disconnected, error_format.
    rewrite error_chunks_blocks. unfold line_split. rewrite Hline. reflexivity.
  - unfold code_block. rewrite !length_app. cbn [join].
    rewrite length_replicate. lia.
Qed.

(** C3, amended. On the non-transient path the operator receives the
    jump-reference line, if there is one, and then one code block per
    group of lines; every group holds at least one and at most 20 lines of
    the rendered text, and its block has exactly two lines more, so at
    most 22. *)
Theorem C3_chunks_hold_at_most_20_text_lines (error : ErrorValue) (ctx : option ErrorCtx) :
  server_disconnected error = false →
  ∃ sent groups,
    error_handle error ctx = inr sent
    ∧ owner_messages sent = jump_line ctx ++ (code_block <$> groups)
    ∧ Forall (λ grp, (1 ≤ length grp ≤ 20)%nat
                     ∧ length (splitlines (code_block grp)) = (length grp + 2)%nat
                     ∧ (length (splitlines (code_block grp)) ≤ 22)%nat) groups.
Proof.
  intros Hkind.
  destruct (error_handle_delivery error ctx Hkind) as (sent & Hsent & Howner).
  exists sent, (line_split (error_format error) 20).
  split; [done|]. split; [done|].
  eapply Forall_impl;
    [apply (slices_bounds 20 _ break_free); [lia|apply splitlines_break_free]|].
  intros grp [Hlen Hfree]. simpl in Hlen, Hfree.
  assert (grp ≠ []) as Hne by (intros ->; simpl in Hlen; lia).
  rewrite (code_block_line_count _ Hne Hfree). lia.
Qed.

Lemma C3_chunks_witness :
  ∃ sent groups,
    error_handle (plain_error (codes "ValueError: boom" ++ [NL])) None = inr sent
    ∧ owner_messages sent = jump_line None ++ (code_block <$> groups)
    ∧ Forall (λ grp, (1 ≤ length grp ≤ 20)%nat
                     ∧ length (splitlines (code_block grp)) = (length grp + 2)%nat
                     ∧ (length (splitlines (code_block grp)) ≤ 22)%nat) groups.
Proof.
  apply (C3_chunks_hold_at_most_20_text_lines
           (plain_error (codes "ValueError: boom" ++ [NL])) None).
  reflexivity.
Defined.

(** C8 does not hold as stated: the rendering of a [ValueError] whose
    message holds a carriage return is delivered as a single chunk in which
    that boundary has become a newline and the final newline is gone;
    whatever is cut off the two ends of the chunk, what is left is not the
    rendered text. *)
Lemma C8_carriage_return_not_reproduced :
  let header := codes "Traceback (most recent call last):" in
  let frame := codes "  File main.py, line 3, in on_message" in
  let text := terminated [header; frame; codes "ValueError: a" ++ [CR] ++ codes "b"] in
  ∃ chunk,
    error_handle (plain_error text) None = inr [OwnerSend chunk]
    ∧ chunk = code_block [header; frame; codes "ValueError: a"; codes "b"]
    ∧ ∀ opener body closer, chunk = opener ++ body ++ closer → body ≠ text.
Proof.
  eexists. split; [vm_compute; reflexivity|]. split; [vm_compute; reflexivity|].
  intros opener body closer Hchunk ->.
  assert (CR ∈ opener
               ++ terminated [codes "Traceback (most recent call last):";
                              codes "  File main.py, line 3, in on_message";
                              codes "ValueError: a" ++ [CR] ++ codes "b"]
               ++ closer) as Hin.
  { apply elem_of_app. right. apply elem_of_app. left.
    apply (bool_decide_unpack _). vm_compute. exact I. }
  rewrite <- Hchunk in Hin. clear Hchunk.
  vm_compute in Hin.
  repeat (apply elem_of_cons in Hin as [Hin|Hin]; [discriminate Hin|]).
  by apply elem_of_nil in Hin.
Qed.

(** C8, amended. On the non-transient path the chunks the operator
    receives after the optional jump-reference line are bodies wrapped
    between the code-block opener and closer; the bodies, joined by
    newlines in delivery order, are the lines of the rendered text joined
    by newlines. Hence, when the text consists of newline-terminated lines
    with no other line boundary, the joined bodies followed by one newline
    are the text itself. *)
Theorem C8_chunks_reproduce_the_lines (error : ErrorValue) (ctx : option ErrorCtx) :
  server_disconnected error = false →
  ∃ sent bodies,
    error_handle error ctx = inr sent
    ∧ owner_messages sent =
        jump_line ctx ++ ((λ body, code_open ++ body ++ code_close) <$> bodies)
    ∧ join [NL] bodies = join [NL] (splitlines (error_format error))
    ∧ ∀ ls, ls ≠ [] → Forall break_free ls → error_format error = terminated ls →
            join [NL] bodies ++ [NL] = error_format error.
Proof.
  intros Hkind.
  destruct (error_handle_delivery error ctx Hkind) as (sent & Hsent & Howner).
  exists sent, (join [NL] <$> line_split (error_format error) 20).
  assert (join [NL] (join [NL] <$> line_split (error_format error) 20)
          = join [NL] (splitlines (error_format error))) as Hjoin.
  { unfold line_split. rewrite join_concat.
    - by rewrite concat_slices by lia.
    - eapply Forall_impl; [apply (slices_bounds 20 _ (λ _, True)); [lia|]|].
      + by apply Forall_true.
      + intros c [[Hlen _] _] ->. simpl in Hlen. lia. }
  split; [done|]. split; [|split; [done|]].
  - rewrite Howner. f_equal. by rewrite <- list_fmap_compose.
  - intros ls Hne Hfree Htext. rewrite Hjoin, Htext.
    rewrite (splitlines_terminated _ Hfree). by apply join_terminated.
Qed.

Lemma C8_chunks_witness :
  ∃ sent bodies,
    error_handle (plain_error (codes "ValueError: boom" ++ [NL])) None = inr sent
    ∧ owner_messages sent =
        jump_line None ++ ((λ body, code_open ++ body ++ code_close) <$> bodies)
    ∧ join [NL] bodies = join [NL] (splitlines (codes "ValueError: boom" ++ [NL]))
    ∧ join [NL] bodies ++ [NL] = codes "ValueError: boom" ++ [NL].
Proof.
  destruct (C8_chunks_reproduce_the_lines
              (plain_error (codes "ValueError: boom" ++ [NL])) None eq_refl)
    as (sent & bodies & Hsent & Howner & Hlines & Htext).
  exists sent, bodies. split; [exact Hsent|]. split; [exact Howner|].
  split; [exact Hlines|].
  apply (Htext [codes "ValueError: boom"]).
  - discriminate.
  - repeat constructor.
  - reflexivity.
Defined.

(** ** Searching and replacing *)

Section Replacing.

Implicit Types (old new sep s t a cur : pystr) (k : nat).

Lemma is_prefix_app old s : is_prefix old (old ++ s) = true.
Proof.
  induction old as [|c old IH]; [done|]. simpl.
  by rewrite bool_decide_eq_true_2, IH.
Qed.

Lemma is_prefix_app_long old s t :
  (length old ≤ length s)%nat → is_prefix old (s ++ t) = is_prefix old s.
Proof.
  revert s. induction old as [|c old IH]; intros s Hlen; [by destruct s|].
  destruct s as [|d s]; simpl in *; [lia|].
  rewrite IH by lia. done.
Qed.

Lemma occurs_nil_old s : occurs [] s = true.
Proof. by destruct s. Qed.

(** Skipping the rest of a match. *)
Lemma replace_from_skip old new s t :
  replace_from old new (length s) (s ++ t) = replace_from old new 0 t.
Proof. induction s as [|c s IH]; [done|]. exact IH. Qed.

Lemma split_from_skip sep cur s t :
  split_from sep (length s) cur (s ++ t) = split_from sep 0 cur t.
Proof. induction s as [|c s IH]; [done|]. exact IH. Qed.

(** A match at the front is replaced. *)
Lemma replace_from_match old new t :
  old ≠ [] → replace_from old new 0 (old ++ t) = new ++ replace_from old new 0 t.
Proof.
  intros Hold. destruct old as [|c old]; [done|].
  change (replace_from (c :: old) new 0 ((c :: old) ++ t))
    with (if is_prefix (c :: old) ((c :: old) ++ t)
          then new ++ replace_from (c :: old) new (length (c :: old) - 1) (old ++ t)
          else c :: replace_from (c :: old) new 0 (old ++ t)).
  rewrite is_prefix_app.
  replace (length (c :: old) - 1)%nat with (length old) by (simpl; lia).
  by rewrite replace_from_skip.
Qed.

Lemma split_from_match sep cur t :
  sep ≠ [] → split_from sep 0 cur (sep ++ t) = cur :: split_from sep 0 [] t.
Proof.
  intros Hsep. destruct sep as [|c sep]; [done|].
  change (split_from (c :: sep) 0 cur ((c :: sep) ++ t))
    with (if is_prefix (c :: sep) ((c :: sep) ++ t)
          then cur :: split_from (c :: sep) (length (c :: sep) - 1) [] (sep ++ t)
          else split_from (c :: sep) 0 (cur ++ [c]) (sep ++ t)).
  rewrite is_prefix_app.
  replace (length (c :: sep) - 1)%nat with (length sep) by (simpl; lia).
  by rewrite split_from_skip.
Qed.

(** Without an occurrence nothing is replaced, and nothing is split. *)
Lemma replace_from_absent old new s :
  occurs old s = false → replace_from old new 0 s = s.
Proof.
  induction s as [|c s IH]; [done|]. intros Hocc.
  cbn [occurs] in Hocc. apply orb_false_iff in Hocc as [Hhere Hlater].
  cbn [replace_from]. rewrite Hhere. by rewrite IH.
Qed.

Lemma split_from_absent sep cur s :
  occurs sep s = false → split_from sep 0 cur s = [cur ++ s].
Proof.
  revert cur. induction s as [|c s IH]; intros cur Hocc.
  - by rewrite app_nil_r.
  - cbn [occurs] in Hocc. apply orb_false_iff in Hocc as [Hhere Hlater].
    cbn [split_from]. rewrite Hhere, IH by done. by rewrite <- app_assoc.
Qed.

(** No match starts inside [a] when [old] does not occur in [a] followed
    by all but the last character of [old]. *)
Lemma is_prefix_before_first old a t :
  old ≠ [] → a ≠ [] →
  is_prefix old (a ++ removelast old) = false →
  is_prefix old (a ++ old ++ t) = false.
Proof.
  intros Hold Ha Hfree.
  rewrite (app_removelast_last 0%N Hold) at 2.
  rewrite <- app_assoc, (app_assoc a). rewrite is_prefix_app_long; [done|].
  rewrite length_app.
  assert (length old = S (length (removelast old))) as ->.
  { rewrite (app_removelast_last 0%N Hold) at 1. rewrite length_app. simpl. lia. }
  destruct a; [done|]. simpl. lia.
Qed.

(** The first occurrence is the one replaced, and the one split at. *)
Lemma replace_from_first old new a t :
  old ≠ [] → occurs old (a ++ removelast old) = false →
  replace_from old new 0 (a ++ old ++ t) = a ++ new ++ replace_from old new 0 t.
Proof.
  intros Hold. induction a as [|c a IH]; intros Hfree.
  - by apply (replace_from_match old new t).
  - cbn [occurs app] in Hfree. apply orb_false_iff in Hfree as [Hhere Hlater].
    pose proof (is_prefix_before_first old (c :: a) t Hold ltac:(done) Hhere) as Hno.
    cbn [app replace_from] in *. rewrite Hno. by rewrite IH.
Qed.

Lemma split_from_first sep cur a t :
  sep ≠ [] → occurs sep (a ++ removelast sep) = false →
  split_from sep 0 cur (a ++ sep ++ t) = (cur ++ a) :: split_from sep 0 [] t.
Proof.
  intros Hsep. revert cur. induction a as [|c a IH]; intros cur Hfree.
  - rewrite app_nil_r. by apply (split_from_match sep cur t).
  - cbn [occurs app] in Hfree. apply orb_false_iff in Hfree as [Hhere Hlater].
    pose proof (is_prefix_before_first sep (c :: a) t Hsep ltac:(done) Hhere) as Hno.
    cbn [app split_from] in *. rewrite Hno. rewrite IH by done.
    by rewrite <- app_assoc.
Qed.

(** Replacing one character by another is a character map. *)
Lemma replace_char_map (c d : N) s :
  str_replace [c] [d] s = (λ x, if bool_decide (x = c) then d else x) <$> s.
Proof.
  unfold str_replace. induction s as [|x s IH]; [done|].
  cbn [replace_from is_prefix length fmap list_fmap]. rewrite andb_true_r.
  rewrite (bool_decide_ext (c = x) (x = c)) by done.
  case_bool_decide; simpl; by rewrite IH.
Qed.

(** Replacing writes only characters of the string or of [new]. *)
Lemma replace_from_Forall (P : N → Prop) old new k s :
  Forall P new → Forall P s → Forall P (replace_from old new k s).
Proof.
  intros Hnew Hs. revert k. induction Hs as [|c s Hc Hs IH]; intros k; [constructor|].
  cbn [replace_from]. destruct k; [|done].
  destruct (is_prefix old (c :: s)).
  - apply Forall_app. by split.
  - by constructor.
Qed.

Lemma str_replace_Forall (P : N → Prop) old new s :
  Forall P new → Forall P s → Forall P (str_replace old new s).
Proof.
  intros Hnew Hs. unfold str_replace. destruct old; [|by apply replace_from_Forall].
  apply Forall_app. split; [done|]. apply Forall_concat, Forall_fmap.
  eapply Forall_impl; [exact Hs|]. intros c Hc. by constructor.
Qed.

Lemma occurs_app old s t : occurs old s = true → occurs old (s ++ t) = true.
Proof.
  induction s as [|c s IH]; intros Hocc.
  - destruct old; [apply occurs_nil_old|done].
  - cbn [occurs app] in *. apply orb_true_iff in Hocc as [Hhere|Hlater].
    + apply orb_true_iff. left.
      assert (∀ p u, is_prefix p u = true → is_prefix p (u ++ t) = true) as Hmono.
      { induction p as [|x p IHp]; intros u Hu; [done|].
        destruct u as [|y u]; [done|]. simpl in *.
        apply andb_true_iff in Hu as [-> Hu]. by rewrite IHp. }
      by apply (Hmono old (c :: s)).
    + apply orb_true_iff. right. by apply IH.
Qed.

End Replacing.

(** ** Extension names *)

Section ExtensionNames.

Implicit Types (str_path base_path stem folder pre post d : pystr).

Lemma file_to_ext_slash_free str_path base_path :
  Forall (λ c, c ≠ SLASH) (file_to_ext str_path base_path).
Proof.
  unfold file_to_ext. apply str_replace_Forall; [constructor|].
  change (codes ".") with [46%N]. rewrite replace_char_map.
  apply Forall_fmap, Forall_forall. intros c _. simpl.
  case_bool_decide; [discriminate|done].
Qed.

(** X1. An extension name never contains a slash. For a path made of the
    base path, a stem and the extension ".py", where the base path occurs
    nowhere else and ".py" occurs nowhere in the dotted stem, the name is
    the stem with every slash turned into a dot. *)
Theorem X1_file_to_ext_module_name :
  (∀ str_path base_path, SLASH ∉ file_to_ext str_path base_path)
  ∧ (∀ base_path stem,
       base_path ≠ [] →
       occurs base_path (stem ++ codes ".py") = false →
       occurs (codes ".py") ((slash_to_dot <$> stem) ++ codes ".p") = false →
       file_to_ext (base_path ++ stem ++ codes ".py") base_path = slash_to_dot <$> stem).
Proof.
  split.
  - intros str_path base_path Hin.
    pose proof (file_to_ext_slash_free str_path base_path) as Hfree.
    rewrite Forall_forall in Hfree. by apply (Hfree SLASH).
  - intros base_path stem Hbase Hrest Hstem. unfold file_to_ext.
    assert (str_replace base_path [] (base_path ++ stem ++ codes ".py")
            = stem ++ codes ".py") as ->.
    { unfold str_replace. destruct base_path as [|c b]; [done|].
      rewrite replace_from_match by done. by rewrite replace_from_absent. }
    change (codes ".") with [46%N]. rewrite replace_char_map, fmap_app.
    change ((λ x, if bool_decide (x = SLASH) then 46%N else x) <$> codes ".py")
      with (codes ".py").
    change (str_replace (codes ".py") [] ?s) with (replace_from (codes ".py") [] 0 s).
    rewrite <- (app_nil_r (codes ".py")) at 2.
    rewrite (replace_from_first (codes ".py") [] _ []); [|done|exact Hstem].
    by rewrite !app_nil_r.
Qed.

Lemma X1_file_to_ext_witness :
  file_to_ext (codes "/home/bot/cogs/general.py") (codes "/home/bot/")
  = codes "cogs.general".
Proof.
  destruct X1_file_to_ext_module_name as [_ Hname].
  apply (Hname (codes "/home/bot/") (codes "cogs/general")); [done|reflexivity..].
Defined.

Section WithFileSystem.

Variable glob_py : pystr → list pystr.

(** The base path once the part before "cogs" has been chosen. *)
Lemma get_all_extensions_unfold str_path folder :
  get_all_extensions glob_py str_path folder =
    match str_split (codes "cogs") str_path !! 0 with
    | None => inl IndexError
    | Some first =>
        let cleaned :=
          backslash_to_slash
            <$> (if bool_decide (first = str_path)
                 then str_replace (codes "main.py") [] first else first) in
        match last cleaned with
        | None => inl IndexError
        | Some c =>
            let base_path :=
              if bool_decide (c ≠ SLASH) then cleaned ++ [SLASH] else cleaned in
            inr (filter (λ ext, ext ≠ codes "cogs.db_handler")
                   ((λ path, file_to_ext path base_path)
                      <$> glob_py (base_path ++ [SLASH] ++ folder)))
        end
    end.
Proof.
  unfold get_all_extensions.
  destruct (str_split (codes "cogs") str_path !! 0) as [first|]; [|done].
  cbn zeta. by rewrite replace_char_map.
Qed.

(** X2. The directory string must leave a non-empty base path: the empty
    string, "main.py" alone, and every string that starts with "cogs" make
    [get_all_extensions] raise [IndexError] at [base_path[-1]], before the
    file system is looked at. *)
Theorem X2_get_all_extensions_empty_base folder :
  get_all_extensions glob_py [] folder = inl IndexError
  ∧ get_all_extensions glob_py (codes "main.py") folder = inl IndexError
  ∧ ∀ rest, get_all_extensions glob_py (codes "cogs" ++ rest) folder = inl IndexError.
Proof.
  split; [reflexivity|]. split; [reflexivity|].
  intros rest. rewrite get_all_extensions_unfold. unfold str_split.
  rewrite split_from_match by done. reflexivity.
Qed.

(** X3. Whatever the file system holds, no name returned is
    "cogs.db_handler" and none contains a slash. *)
Theorem X3_get_all_extensions_names str_path folder exts :
  get_all_extensions glob_py str_path folder = inr exts →
  Forall (λ ext, ext ≠ codes "cogs.db_handler" ∧ SLASH ∉ ext) exts.
Proof.
  rewrite get_all_extensions_unfold.
  destruct (str_split (codes "cogs") str_path !! 0) as [first|]; [|done].
  cbn zeta. destruct (last _) as [c|]; [|done]. intros [= <-].
  apply Forall_forall. intros ext Hext.
  apply list_elem_of_filter in Hext as [Hne Hext]. split; [done|].
  apply list_elem_of_fmap in Hext as (path & -> & _). intros Hin.
  pose proof (file_to_ext_slash_free path
                (if bool_decide (c ≠ SLASH)
                 then (backslash_to_slash
                         <$> (if bool_decide (first = str_path)
                              then str_replace (codes "main.py") [] first else first))
                      ++ [SLASH]
                 else backslash_to_slash
                        <$> (if bool_decide (first = str_path)
                             then str_replace (codes "main.py") [] first else first)))
    as Hfree.
  rewrite Forall_forall in Hfree. by apply (Hfree SLASH).
Qed.

Lemma occurs_false_app old s t : occurs old (s ++ t) = false → occurs old s = false.
Proof.
  intros Hocc. destruct (occurs old s) eqn:Hs; [|done].
  by rewrite (occurs_app _ _ t Hs) in Hocc.
Qed.

(** The base path chosen for a directory string without "cogs" and
    without "main.py". *)
Lemma get_all_extensions_plain d folder :
  occurs (codes "cogs") d = false → occurs (codes "main.py") d = false →
  get_all_extensions glob_py d folder =
    match last (backslash_to_slash <$> d) with
    | None => inl IndexError
    | Some c =>
        let base_path :=
          if bool_decide (c ≠ SLASH)
          then (backslash_to_slash <$> d) ++ [SLASH] else backslash_to_slash <$> d in
        inr (filter (λ ext, ext ≠ codes "cogs.db_handler")
               ((λ path, file_to_ext path base_path)
                  <$> glob_py (base_path ++ [SLASH] ++ folder)))
    end.
Proof.
  intros Hcogs Hmain. rewrite get_all_extensions_unfold. unfold str_split.
  rewrite split_from_absent by done. cbn [lookup list_lookup app]. cbn zeta.
  rewrite bool_decide_eq_true_2 by done.
  change (str_replace (codes "main.py") [] d)
    with (replace_from (codes "main.py") [] 0 d).
  by rewrite replace_from_absent.
Qed.

(** X4. The bot directory may be named by itself, by the path of its
    "main.py", or by any path that continues after its "cogs" folder: when
    "cogs" and "main.py" occur nowhere else in the string, all three give
    the same result. *)
Theorem X4_get_all_extensions_same_directory d post folder :
  occurs (codes "cogs") (d ++ codes "main.py") = false →
  occurs (codes "main.py") (d ++ codes "main.p") = false →
  get_all_extensions glob_py (d ++ codes "main.py") folder
    = get_all_extensions glob_py d folder
  ∧ get_all_extensions glob_py (d ++ codes "cogs" ++ post) folder
    = get_all_extensions glob_py d folder.
Proof.
  intros Hcogs Hmain.
  pose proof (occurs_false_app _ _ _ Hcogs) as Hcogs_d.
  pose proof (occurs_false_app _ _ _ Hmain) as Hmain_d.
  rewrite (get_all_extensions_plain d) by done. split.
  - assert (str_replace (codes "main.py") [] (d ++ codes "main.py") = d) as Hstrip.
    { change (str_replace (codes "main.py") [] ?s)
        with (replace_from (codes "main.py") [] 0 s).
      rewrite <- (app_nil_r (codes "main.py")) at 2.
      rewrite (replace_from_first (codes "main.py") [] d []); [|done|exact Hmain].
      by rewrite !app_nil_r. }
    rewrite get_all_extensions_unfold. unfold str_split.
    rewrite split_from_absent by done. cbn [lookup list_lookup app].
    rewrite bool_decide_eq_true_2 by done. by rewrite Hstrip.
  - rewrite get_all_extensions_unfold. unfold str_split.
    assert (occurs (codes "cogs") (d ++ removelast (codes "cogs")) = false) as Hfirst.
    { change (removelast (codes "cogs")) with (codes "cog").
      destruct (occurs (codes "cogs") (d ++ codes "cog")) eqn:Hocc; [|done].
      exfalso. revert Hocc Hcogs_d. clear. intros Hocc Hd.
      assert (∀ s, occurs (codes "cogs") s = false →
                   occurs (codes "cogs") (s ++ codes "cog") = false) as Hext.
      { induction s as [|c s IH]; intros Hs; [reflexivity|].
        cbn [occurs app] in *. apply orb_false_iff in Hs as [Hhere Hlater].
        apply orb_false_iff. split; [|by apply IH].
        destruct s as [|c1 [|c2 [|c3 s]]].
        - simpl. by rewrite !andb_false_r.
        - simpl. by rewrite !andb_false_r.
        - simpl. by rewrite !andb_false_r.
        - simpl in *. exact Hhere. }
      rewrite (Hext d Hd) in Hocc. discriminate. }
    rewrite (split_from_first (codes "cogs") [] d post); [|done|exact Hfirst].
    cbn [lookup list_lookup app]. cbn zeta.
    rewrite bool_decide_eq_false_2; [done|].
    intros Heq. apply (f_equal length) in Heq. rewrite !length_app in Heq.
    simpl in Heq. lia.
Qed.

End WithFileSystem.

End ExtensionNames.

Lemma X3_get_all_extensions_names_witness :
  Forall (λ ext, ext ≠ codes "cogs.db_handler" ∧ SLASH ∉ ext) [codes "cogs.general"].
Proof.
  apply (X3_get_all_extensions_names sample_glob (codes "/home/bot/") (codes "cogs")).
  reflexivity.
Defined.

Lemma X4_get_all_extensions_same_directory_witness :
  get_all_extensions sample_glob (codes "/home/bot/main.py") (codes "cogs")
    = get_all_extensions sample_glob (codes "/home/bot/") (codes "cogs")
  ∧ get_all_extensions sample_glob (codes "/home/bot/cogs/general.py") (codes "cogs")
    = get_all_extensions sample_glob (codes "/home/bot/") (codes "cogs").
Proof.
  apply (X4_get_all_extensions_same_directory sample_glob (codes "/home/bot/")
           (codes "/general.py") (codes "cogs")); reflexivity.
Defined.

(** ** Splitting for delivery *)

Lemma slices_count {A} (n : nat) (l : list A) :
  length (slices n l) = ((length l + n - 1) / n)%nat.
Proof. by rewrite slices_unfold, length_fmap, length_seq. Qed.

(** A list that fits in one slice is its only slice. *)
Lemma slices_single {A} (n : nat) (l : list A) :
  l ≠ [] → (length l ≤ n)%nat → slices n l = [l].
Proof.
  intros Hne Hlen.
  assert (0 < length l)%nat as Hpos by (destruct l; [done|simpl; lia]).
  assert (length (slices n l) = 1%nat) as Hcount.
  { rewrite slices_count. symmetry.
    apply (Nat.div_unique _ _ _ (length l - 1)); lia. }
  pose proof (concat_slices n l ltac:(lia)) as Hconcat.
  destruct (slices n l) as [|x [|y rest]]; simpl in Hcount; try lia.
  simpl in Hconcat. by rewrite app_nil_r in Hconcat; subst.
Qed.

(** X5. [string_split] cuts a string into parts of at least one and at
    most 1950 characters which, put end to end, are the string; a string
    that is not empty and has at most 1950 characters is its only part, and
    the empty string has no part. *)
Theorem X5_string_split_parts (s : pystr) :
  concat (string_split s) = s
  ∧ Forall (λ part, (1 ≤ length part ≤ 1950)%nat) (string_split s)
  ∧ (s ≠ [] → (length s ≤ 1950)%nat → string_split s = [s])
  ∧ string_split [] = [].
Proof.
  unfold string_split. split; [apply concat_slices; lia|]. split; [|split].
  - eapply Forall_impl; [apply (slices_bounds 1950 s (λ _, True)); [lia|]|].
    + by apply Forall_true.
    + by intros part [Hlen _].
  - apply slices_single.
  - reflexivity.
Qed.

Lemma X5_string_split_witness :
  string_split (codes "Reconnecting...") = [codes "Reconnecting..."].
Proof.
  destruct (X5_string_split_parts (codes "Reconnecting...")) as (_ & _ & Hone & _).
  apply Hone; [discriminate|]. vm_compute. repeat constructor.
Defined.

(** X6. For a positive group size, [line_split] returns the lines of
    [str.splitlines] in order, in groups of at least one and at most
    [split_by] lines, none of which contains a line boundary; a text
    without lines gives no group. *)
Theorem X6_line_split_groups (content : pystr) (split_by : nat) :
  (0 < split_by)%nat →
  concat (line_split content split_by) = splitlines content
  ∧ Forall (λ grp, (1 ≤ length grp ≤ split_by)%nat ∧ Forall break_free grp)
           (line_split content split_by)
  ∧ (splitlines content = [] → line_split content split_by = []).
Proof.
  intros Hpos. unfold line_split. split; [by apply concat_slices|]. split.
  - apply slices_bounds; [done|apply splitlines_break_free].
  - intros ->. unfold slices, range_step. simpl.
    replace (split_by - 0)%nat with split_by by lia.
    rewrite Nat.div_small by lia. reflexivity.
Qed.

Lemma X6_line_split_witness :
  concat (line_split (codes "a" ++ [CR; NL] ++ codes "b" ++ [NL]) 1)
    = [codes "a"; codes "b"]
  ∧ Forall (λ grp, (1 ≤ length grp ≤ 1)%nat ∧ Forall break_free grp)
           (line_split (codes "a" ++ [CR; NL] ++ codes "b" ++ [NL]) 1).
Proof.
  destruct (X6_line_split_groups (codes "a" ++ [CR; NL] ++ codes "b" ++ [NL]) 1)
    as (Hconcat & Hgroups & _); [lia|].
  split; [exact Hconcat|exact Hgroups].
Defined.

(** ** More on the error pipeline *)

Lemma error_handle_transient (error : ErrorValue) (ctx : option ErrorCtx) :
  server_disconnected error = true →
  error_handle error ctx =
    inr (OwnerSend (codes "Disconnected from server!") ::
         match ctx with
         | None => []
         | Some c =>
             match ctx_kind c with
             | TextCommand => [CtxReply (user_notice error)]
             | Interaction => [InteractionSend (user_notice error)]
             | OtherCtx => []
             end
         end).
Proof. intros Hkind. unfold error_handle. by rewrite Hkind. Qed.

(** X7. [error_handle] never raises: the two index assignments on every
    group of lines are always in range, on both paths and for every
    context. An error reaching [on_error] produces operator messages only. *)
Theorem X7_error_handle_never_raises :
  (∀ (error : ErrorValue) (ctx : option ErrorCtx),
     ∃ sent, error_handle error ctx = inr sent)
  ∧ (∀ error : ErrorValue, ∃ msgs, on_error error = inr (OwnerSend <$> msgs)).
Proof.
  split.
  - intros error ctx. destruct (server_disconnected error) eqn:Hkind.
    + eexists. by apply error_handle_transient.
    + destruct (error_handle_delivery error ctx Hkind) as (sent & Hsent & _). eauto.
  - intros error. unfold on_error, error_handle.
    destruct (server_disconnected error).
    + eexists. by rewrite app_nil_r.
    + rewrite error_chunks_blocks. eexists. by rewrite app_nil_r.
Qed.

(** X8. For a server disconnection the operator receives the single
    message "Disconnected from server!", whatever the exception renders
    to and whatever the context; nothing of the traceback is sent. *)
Theorem X8_transient_error_short_message (error : ErrorValue) (ctx : option ErrorCtx) :
  server_disconnected error = true →
  ∃ sent,
    error_handle error ctx = inr sent
    ∧ owner_messages sent = [codes "Disconnected from server!"].
Proof.
  intros Hkind. eexists. split; [by apply error_handle_transient|].
  change (owner_messages (?m :: ?l)) with (codes "Disconnected from server!" :: owner_messages l).
  by rewrite owner_messages_notice.
Qed.

Lemma X8_transient_error_witness :
  ∃ sent,
    error_handle {| server_disconnected := true;
                    error_format := codes "Traceback" ++ [NL];
                    error_str := codes "Server disconnected" |}
                 (Some {| ctx_kind := TextCommand; jump_url := Some (codes "https://j") |})
      = inr sent
    ∧ owner_messages sent = [codes "Disconnected from server!"].
Proof.
  apply (X8_transient_error_short_message
           {| server_disconnected := true;
              error_format := codes "Traceback" ++ [NL];
              error_str := codes "Server disconnected" |}).
  reflexivity.
Defined.

(** X9. On both paths the user notice comes after every operator message.
    It is sent once, by reply for a text-command context and by send for
    an interaction, and not at all for another kind of context or without
    one; its text is a fixed preamble followed by [str(error)]. *)
Theorem X9_user_notice_after_operator (error : ErrorValue) (ctx : option ErrorCtx) :
  ∃ msgs,
    error_handle error ctx =
      inr ((OwnerSend <$> msgs) ++
           match ctx_kind <$> ctx with
           | Some TextCommand => [CtxReply (user_notice error)]
           | Some Interaction => [InteractionSend (user_notice error)]
           | Some OtherCtx | None => []
           end)
    ∧ user_notice error =
        codes "An internal error has occured. The bot owner has been notified."
        ++ [NL] ++ codes "Error (for bot owner purposes): " ++ error_str error.
Proof.
  assert (match ctx with
          | None => []
          | Some c =>
              match ctx_kind c with
              | TextCommand => [CtxReply (user_notice error)]
              | Interaction => [InteractionSend (user_notice error)]
              | OtherCtx => []
              end
          end =
          match ctx_kind <$> ctx with
          | Some TextCommand => [CtxReply (user_notice error)]
          | Some Interaction => [InteractionSend (user_notice error)]
          | Some OtherCtx | None => []
          end) as Hnotice by (by destruct ctx as [[[]]|]).
  unfold error_handle. destruct (server_disconnected error).
  - exists [codes "Disconnected from server!"]. by rewrite Hnotice.
  - rewrite error_chunks_blocks. eexists. by rewrite Hnotice.
Qed.

Lemma notice_preamble_length (error : ErrorValue) :
  length (user_notice error) = (96 + length (error_str error))%nat.
Proof.
  unfold user_notice. rewrite !length_app.
  generalize (length (error_str error)). intros n. vm_compute. reflexivity.
Qed.

Lemma two_ceilings (total limit preamble room n : nat) :
  (limit = preamble + room → limit ≤ total →
   (if bool_decide (total < preamble + n) then false
    else if bool_decide (limit < preamble + n) then false else true) = true
   ↔ n ≤ room)%nat.
Proof.
  intros -> Htotal. repeat case_bool_decide; split; intros; try done; lia.
Qed.

(** X10. [error_handle] sends the notice embed unchecked: [embed_check]
    accepts it exactly when [str(error)] has at most 4000 characters, the
    preamble taking 96 of the 4096 a description may have. *)
Theorem X10_notice_embed_within_limits (error : ErrorValue) :
  embed_check (error_embed error) = true ↔ (length (error_str error) ≤ 4000)%nat.
Proof.
  unfold embed_check, error_embed, Embed_len. cbn -[user_notice Nat.div].
  rewrite !Nat.add_0_r. unfold str_over.
  assert (user_notice error ≠ []) as Hne.
  { intros Hnil. apply (f_equal length) in Hnil.
    rewrite notice_preamble_length in Hnil. discriminate. }
  rewrite (bool_decide_eq_false_2 _ Hne). cbn [negb andb].
  rewrite notice_preamble_length.
  apply two_ceilings; [reflexivity|].
  apply Nat.leb_le. vm_compute. reflexivity.
Qed.

(** ** More on prefix resolution *)

Section ResolverExtras.

Implicit Types (msg : Message) (w : World) (g : Guild) (p : gset string).

(** X11. An exception of a class that no [except] clause names is not
    swallowed: on a cache miss it leaves the resolver as it left the
    store, after one round-trip, and the community's cache entry still
    holds no prefixes. *)
Theorem X11_unhandled_exception_propagates msg g w (e : exn) :
  Message_guild msg = Some g →
  cached_for w (Guild_id g) = ∅ →
  store_get (db w) (Guild_id g) = inl e →
  ¬ handled e →
  ∃ w',
    realms_playerlist_prefixes msg w = (inl e, w')
    ∧ store_calls (db w') = store_calls (db w) ++ [Guild_id g]
    ∧ cached_for w' (Guild_id g) = ∅.
Proof.
  intros Hg Hempty Hstore Hother. exists (after_fetch (Guild_id g) w).
  split; [|split].
  - rewrite resolver_by_outcome, (get_prefixes_miss _ _ _ Hg Hempty), Hstore.
    destruct e; try done; exfalso; apply Hother; unfold handled;
      rewrite !elem_of_cons; tauto.
  - apply after_fetch_calls.
  - by rewrite after_fetch_cached.
Qed.

Lemma X11_unhandled_exception_witness :
  ∃ w',
    realms_playerlist_prefixes (msg_in 42)
      (sample_world (λ _, inl (OtherError "OperationalError")))
      = (inl (OtherError "OperationalError"), w')
    ∧ store_calls (db w') = [42%Z]
    ∧ cached_for w' 42 = ∅.
Proof.
  apply (X11_unhandled_exception_propagates (msg_in 42) {| Guild_id := 42 |}
           (sample_world (λ _, inl (OtherError "OperationalError"))));
    try reflexivity.
  unfold handled. rewrite !elem_of_cons, elem_of_nil.
  intros [?|[?|[?|[?|[?|[]]]]]]; discriminate.
Defined.

(** X12. Resolving the prefixes of a message touches its own community
    only: the cache entry of every other community is what it was, and no
    round-trip is made for it. A message without community changes
    nothing. *)
Theorem X12_resolution_leaves_other_communities msg w (k : Z) :
  (∀ g, Message_guild msg = Some g → Guild_id g ≠ k) →
  cached_prefixes (bot (realms_playerlist_prefixes msg w).2) !! k
    = cached_prefixes (bot w) !! k
  ∧ fetch_count k (realms_playerlist_prefixes msg w).2 = fetch_count k w.
Proof.
  intros Hother. rewrite resolver_world.
  destruct (Message_guild msg) as [g|] eqn:Hg;
    [|by rewrite (get_prefixes_no_guild _ _ Hg)].
  specialize (Hother g eq_refl).
  destruct (cached_for_cases w (Guild_id g)) as [Hempty|(q & Hq & Hqne)];
    [|by rewrite (get_prefixes_hit _ _ _ _ Hg Hq Hqne)].
  rewrite (get_prefixes_miss _ _ _ Hg Hempty).
  assert (fetch_count k (after_fetch (Guild_id g) w) = fetch_count k w) as Hcount.
  { unfold fetch_count. rewrite after_fetch_calls, filter_app, length_app.
    rewrite filter_cons_False, filter_nil by congruence. simpl. lia. }
  destruct (store_get (db w) (Guild_id g)) as [e|cfg]; cbn [snd].
  - by rewrite after_fetch_lookup_ne.
  - unfold after_populate, update_bot, fetch_count.
    cbn [bot db set_cached_prefixes cached_prefixes].
    rewrite lookup_insert_ne by done. by rewrite after_fetch_lookup_ne.
Qed.

Lemma X12_resolution_witness :
  cached_prefixes (bot (realms_playerlist_prefixes (msg_in 42)
                          (sample_world (λ _, inl DoesNotExist))).2) !! 7%Z = None
  ∧ fetch_count 7 (realms_playerlist_prefixes (msg_in 42)
                     (sample_world (λ _, inl DoesNotExist))).2 = 0%nat.
Proof.
  apply (X12_resolution_leaves_other_communities (msg_in 42)
           (sample_world (λ _, inl DoesNotExist)) 7).
  intros g [= <-]. discriminate.
Defined.

(** X13. The cache is never refreshed: while a community's entry holds
    prefixes, the resolver answers from it and leaves the world as it is,
    whatever the store would return now, be it another prefix set or an
    error. *)
Theorem X13_cached_prefixes_outlive_the_record msg g w p (get : Z → exn + GuildConfig) :
  Message_guild msg = Some g →
  cached_prefixes (bot w) !! Guild_id g = Some p →
  p ≠ ∅ →
  realms_playerlist_prefixes msg (store_now get w)
    = (inr (mention_prefixes (bot w) ∪ p), store_now get w).
Proof.
  intros Hg Hcached Hne.
  by rewrite resolver_by_outcome, (get_prefixes_hit _ g _ p Hg).
Qed.

Lemma X13_cached_prefixes_witness :
  let cached := {| bot := set_cached_prefixes {[ 42%Z := {[ "!?" ]} ]} sample_bot;
                   db := {| store_get := λ _, inl DoesNotExist; store_calls := [] |} |} in
  realms_playerlist_prefixes (msg_in 42)
    (store_now (λ _, inr {| guild_id := 42; prefixes := {[ "$" ]} |}) cached)
  = (inr (mention_prefixes sample_bot ∪ {[ "!?" ]}),
     store_now (λ _, inr {| guild_id := 42; prefixes := {[ "$" ]} |}) cached).
Proof.
  intros cached.
  apply (X13_cached_prefixes_outlive_the_record (msg_in 42) {| Guild_id := 42 |}
           cached {[ "!?" ]}).
  - reflexivity.
  - reflexivity.
  - apply non_empty_singleton_L.
Defined.

End ResolverExtras.

(** ** More on the admission gate *)

(** X14. The gate as a decision table. With the owner known and a command
    resolved, a context is accepted exactly when the bot is ready,
    [init_load] has cleared, the message has a community, and the author is
    the operator, or the community is not the restricted one, or the
    command is "help" or "ping". With no command resolved, the gate raises
    [AttributeError] exactly in the one case that reads the command's
    name. *)
Theorem X14_global_checks_table (DEV_GUILD_ID : Z) (ctx : Context) (operator : User) :
  owner (ctx_bot ctx) = Some operator →
  (∀ cmd, ctx_command ctx = Some cmd →
     global_checks DEV_GUILD_ID ctx =
       inr (is_ready (ctx_bot ctx) && negb (init_load (ctx_bot ctx))
            && from_option
                 (λ guild,
                    bool_decide (User_id (ctx_author ctx) = User_id operator)
                    || negb (bool_decide (Guild_id guild = DEV_GUILD_ID))
                    || bool_decide (qualified_name cmd = "help"
                                    ∨ qualified_name cmd = "ping"))
                 false (ctx_guild ctx)))
  ∧ (ctx_command ctx = None →
     global_checks DEV_GUILD_ID ctx = inl AttributeError
     ↔ is_ready (ctx_bot ctx) = true ∧ init_load (ctx_bot ctx) = false
       ∧ ∃ guild, ctx_guild ctx = Some guild
                  ∧ User_id (ctx_author ctx) ≠ User_id operator
                  ∧ Guild_id guild = DEV_GUILD_ID).
Proof.
  intros Hown. unfold global_checks, restricted_and_not_allowed. rewrite Hown.
  cbn [attr]. split.
  - intros cmd ->. cbn [attr].
    destruct (is_ready (ctx_bot ctx)); [|done].
    destruct (init_load (ctx_bot ctx)); [done|]. cbn [negb andb].
    destruct (ctx_guild ctx) as [guild|]; [|done]. cbn [from_option].
    case_bool_decide; [done|]. cbn [orb].
    case_bool_decide; [|done]. cbn [negb orb].
    do 2 f_equal. rewrite negb_involutive. apply bool_decide_ext.
    rewrite !elem_of_cons, elem_of_nil. tauto.
  - intros ->. cbn [attr].
    destruct (is_ready (ctx_bot ctx)); [|cbn [negb]; split; [done|by intros [? _]]].
    destruct (init_load (ctx_bot ctx));
      [cbn [negb]; split; [done|by intros (_ & ? & _)]|].
    cbn [negb]. destruct (ctx_guild ctx) as [guild|];
      [|split; [done|by intros (_ & _ & ? & ? & _)]].
    repeat case_bool_decide; split; try done.
    + intros (_ & _ & guild' & [= <-] & Hne & _). done.
    + intros _. eauto 10.
    + intros (_ & _ & guild' & [= <-] & _ & Heq). done.
Qed.

Lemma X14_global_checks_witness :
  global_checks 99 (ctx_of sample_bot (Some 99%Z) 2 "ping") = inr true
  ∧ global_checks 99 (ctx_of sample_bot None 2 "ping") = inr false.
Proof.
  split.
  - destruct (X14_global_checks_table 99 (ctx_of sample_bot (Some 99%Z) 2 "ping")
                {| User_id := 1 |} eq_refl) as [Htable _].
    apply (Htable {| qualified_name := "ping" |} eq_refl).
  - destruct (X14_global_checks_table 99 (ctx_of sample_bot None 2 "ping")
                {| User_id := 1 |} eq_refl) as [Htable _].
    apply (Htable {| qualified_name := "ping" |} eq_refl).
Defined.

(** ** The event handlers *)

Section Events.

Implicit Types (p : Process) (time_format : pystr) (change_presence : option exn).

Lemma on_ready_unfold time_format change_presence p (operator : User) :
  owner (proc_bot p) = Some operator →
  on_ready time_format change_presence p =
    Some (match change_presence with
          | Some e => if bool_decide (e = ConnectionClosedOK) then inr tt else inl e
          | None => inr tt
          end,
          {| proc_bot := set_init_load false (proc_bot p);
             proc_sent := proc_sent p
                          ++ announcement (init_load (proc_bot p)) time_format
                               change_presence |}).
Proof.
  intros Hown.
  assert (msg_to_owner (Split (codes "Reconnecting..."))
          = [OwnerSend (codes "Reconnecting...")]) as Hsplit
    by (vm_compute; reflexivity).
  unfold on_ready, announcement, send_all. rewrite Hown, Hsplit.
  cbn [proc_bot proc_sent].
  destruct change_presence as [e|].
  - rewrite (bool_decide_ext (Some e = Some ConnectionClosedOK) (e = ConnectionClosedOK))
      by (split; congruence).
    case_bool_decide; [|by destruct (init_load (proc_bot p))].
    cbn [proc_bot proc_sent]. do 3 f_equal. rewrite <- app_assoc.
    by destruct (init_load (proc_bot p)).
  - rewrite bool_decide_eq_false_2 by done. by destruct (init_load (proc_bot p)).
Qed.

(** X15. Once the owner is known, [on_ready] tells the operator "Logged
    in" when [init_load] is still set and "Reconnected" otherwise, then
    clears [init_load] and leaves owner, readiness and prefix cache alone.
    A closed connection during the presence update is answered by a second
    message, "Reconnecting..."; any other exception leaves the handler,
    with [init_load] already cleared. *)
Theorem X15_on_ready_announces_and_clears time_format change_presence p (operator : User) :
  owner (proc_bot p) = Some operator →
  ∃ outcome p',
    on_ready time_format change_presence p = Some (outcome, p')
    ∧ proc_bot p' = set_init_load false (proc_bot p)
    ∧ proc_sent p' =
        proc_sent p
        ++ OwnerSend ((if init_load (proc_bot p)
                       then codes "Logged in at " else codes "Reconnected at ")
                      ++ time_format ++ codes "!")
           :: (if bool_decide (change_presence = Some ConnectionClosedOK)
               then [OwnerSend (codes "Reconnecting...")] else [])
    ∧ (∀ e, outcome = inl e ↔ change_presence = Some e ∧ e ≠ ConnectionClosedOK).
Proof.
  intros Hown. rewrite (on_ready_unfold _ _ _ _ Hown).
  eexists _, _. split; [done|]. split; [done|]. split; [done|].
  intros e. destruct change_presence as [e'|]; [|by split; [|intros []]].
  case_bool_decide; split.
  - done.
  - intros [[= ->] Hne]. done.
  - intros [= ->]. done.
  - by intros [[= ->] _].
Qed.

Lemma X15_on_ready_witness :
  ∃ outcome p',
    on_ready (codes "<t:0>") (Some ConnectionClosedOK)
      {| proc_bot := set_init_load true sample_bot; proc_sent := [] |}
      = Some (outcome, p')
    ∧ proc_bot p' = set_init_load false (set_init_load true sample_bot)
    ∧ proc_sent p' = [OwnerSend (codes "Logged in at <t:0>!");
                      OwnerSend (codes "Reconnecting...")]
    ∧ (∀ e, outcome = inl e ↔ Some ConnectionClosedOK = Some e ∧ e ≠ ConnectionClosedOK).
Proof.
  apply (X15_on_ready_announces_and_clears (codes "<t:0>") (Some ConnectionClosedOK)
           {| proc_bot := set_init_load true sample_bot; proc_sent := [] |}
           {| User_id := 1 |}).
  reflexivity.
Defined.

(** X16. [init_load] is a one-way latch. Over any run of [on_ready]
    events with the owner known, only the first event of a process that is
    still loading announces "Logged in"; every other one announces
    "Reconnected"; after the first event [init_load] is clear and stays
    clear, and the owner is never changed. *)
Theorem X16_init_load_is_a_latch (events : list (pystr * option exn)) p (operator : User) :
  owner (proc_bot p) = Some operator →
  ∃ p',
    on_ready_all events p = Some p'
    ∧ proc_sent p' = proc_sent p ++ announcements (init_load (proc_bot p)) events
    ∧ owner (proc_bot p') = Some operator
    ∧ init_load (proc_bot p') = init_load (proc_bot p) && bool_decide (events = []).
Proof.
  revert p. induction events as [|[time_format change_presence] events IH];
    intros p Hown.
  - exists p. simpl. rewrite app_nil_r, andb_true_r. done.
  - cbn [on_ready_all]. rewrite (on_ready_unfold _ _ _ _ Hown).
    destruct (IH {| proc_bot := set_init_load false (proc_bot p);
                    proc_sent := proc_sent p
                                 ++ announcement (init_load (proc_bot p)) time_format
                                      change_presence |} Hown)
      as (p' & Hrun & Hsent & Hown' & Hload).
    exists p'. split; [exact Hrun|]. split; [|split; [exact Hown'|]].
    + rewrite Hsent. cbn [announcements proc_sent proc_bot set_init_load init_load].
      by rewrite <- app_assoc.
    + rewrite Hload. cbn [proc_bot set_init_load init_load].
      rewrite (bool_decide_eq_false_2 (_ :: events = [])) by done.
      by rewrite andb_false_r.
Qed.

Lemma X16_init_load_witness :
  ∃ p',
    on_ready_all [(codes "<t:0>", None); (codes "<t:9>", None)]
      {| proc_bot := set_init_load true sample_bot; proc_sent := [] |} = Some p'
    ∧ proc_sent p' = [OwnerSend (codes "Logged in at <t:0>!");
                      OwnerSend (codes "Reconnected at <t:9>!")]
    ∧ owner (proc_bot p') = Some {| User_id := 1 |}
    ∧ init_load (proc_bot p') = false.
Proof.
  apply (X16_init_load_is_a_latch [(codes "<t:0>", None); (codes "<t:9>", None)]
           {| proc_bot := set_init_load true sample_bot; proc_sent := [] |}
           {| User_id := 1 |}).
  reflexivity.
Defined.

(** X17. The gate and [on_ready] fit together: in the state a completed
    [on_ready] leaves behind, the gate finds [bot.owner], so for a context
    with a resolved command it answers and does not raise, and it admits
    the operator in every community as soon as the bot is ready. *)
Theorem X17_gate_after_on_ready (DEV_GUILD_ID : Z) time_format change_presence p
    (outcome : exn + unit) (p' : Process) (ctx : Context) :
  on_ready time_format change_presence p = Some (outcome, p') →
  ctx_bot ctx = proc_bot p' →
  is_Some (ctx_command ctx) →
  ∃ operator accepted,
    owner (proc_bot p') = Some operator
    ∧ global_checks DEV_GUILD_ID ctx = inr accepted
    ∧ (User_id (ctx_author ctx) = User_id operator →
       accepted = is_ready (ctx_bot ctx) && bool_decide (is_Some (ctx_guild ctx))).
Proof.
  intros Hrun Hbot [cmd Hcmd].
  destruct (owner (proc_bot p)) as [operator|] eqn:Hown;
    [|by unfold on_ready in Hrun; rewrite Hown in Hrun].
  rewrite (on_ready_unfold _ _ _ _ Hown) in Hrun. injection Hrun as _ <-.
  cbn [proc_bot] in *. exists operator.
  unfold global_checks, restricted_and_not_allowed. rewrite Hbot, Hcmd.
  cbn [set_init_load is_ready init_load owner]. rewrite Hown. cbn [attr].
  destruct (is_ready (proc_bot p)); cbn [negb andb]; [|by eexists].
  destruct (ctx_guild ctx) as [guild|]; [|by eexists].
  case_bool_decide as Hop.
  - eexists. split; [done|]. split; [done|]. intros _.
    by rewrite bool_decide_eq_true_2.
  - case_bool_decide; eexists; (split; [done|]); (split; [done|]); by intros ?.
Qed.

Lemma X17_gate_after_on_ready_witness :
  ∃ operator accepted,
    owner (set_init_load false sample_bot) = Some operator
    ∧ global_checks 99 (ctx_of (set_init_load false sample_bot) (Some 99%Z) 1 "playerlist")
      = inr accepted
    ∧ (1%Z = User_id operator → accepted = true && true).
Proof.
  apply (X17_gate_after_on_ready 99 (codes "<t:0>") None
           {| proc_bot := set_init_load true sample_bot; proc_sent := [] |}
           (inr tt)
           {| proc_bot := set_init_load false sample_bot;
              proc_sent := [OwnerSend (codes "Logged in at <t:0>!")] |}
           (ctx_of (set_init_load false sample_bot) (Some 99%Z) 1 "playerlist")).
  - reflexivity.
  - reflexivity.
  - by eexists.
Defined.

(** X18. [get_context] keeps a command the library found. When none was
    found and a word was invoked, the command is looked up again under the
    word with every hyphen turned into an underscore; so a command
    registered under a name is found from every spelling of that name that
    writes some of its underscores as hyphens, and the key of the second
    lookup never contains a hyphen. *)
Theorem X18_get_context_hyphen_retry (all_commands : gmap pystr Command) (ctx : ParsedContext) :
  (is_Some (parsed_command ctx) → get_context all_commands ctx = ctx)
  ∧ (∀ word,
       parsed_command ctx = None → invoked_with ctx = Some word → word ≠ [] →
       get_context all_commands ctx =
         {| parsed_command := all_commands !! (hyphen_to_underscore <$> word);
            invoked_with := Some word |}
       ∧ (HYPHEN ∉ hyphen_to_underscore <$> word)
       ∧ (∀ name cmd,
            all_commands !! name = Some cmd →
            hyphen_to_underscore <$> word = name →
            parsed_command (get_context all_commands ctx) = Some cmd)).
Proof.
  split.
  - intros [cmd Hcmd]. unfold get_context. by rewrite Hcmd.
  - intros word Hnone Hword Hne.
    assert (get_context all_commands ctx =
              {| parsed_command := all_commands !! (hyphen_to_underscore <$> word);
                 invoked_with := Some word |}) as Hretry.
    { unfold get_context. rewrite Hnone, Hword.
      rewrite bool_decide_eq_true_2 by done. by rewrite replace_char_map. }
    split; [exact Hretry|]. split.
    + intros Hin. apply list_elem_of_fmap in Hin as (c & Hc & _).
      unfold hyphen_to_underscore in Hc. case_bool_decide; [discriminate|done].
    + intros name cmd Hreg <-. by rewrite Hretry.
Qed.

Lemma X18_get_context_witness :
  parsed_command
    (get_context {[ codes "online_cmd" := {| qualified_name := "online_cmd" |} ]}
       {| parsed_command := None; invoked_with := Some (codes "online-cmd") |})
  = Some {| qualified_name := "online_cmd" |}.
Proof.
  destruct (X18_get_context_hyphen_retry
              {[ codes "online_cmd" := {| qualified_name := "online_cmd" |} ]}
              {| parsed_command := None; invoked_with := Some (codes "online-cmd") |})
    as [_ Hretry].
  destruct (Hretry (codes "online-cmd") eq_refl eq_refl ltac:(discriminate))
    as (_ & _ & Hfound).
  apply (Hfound (codes "online_cmd")); reflexivity.
Defined.

End Events.
